(** * Job Portal Skills API: the access gate, the position resolver,
      the suggestion engine and the combined category view of [main.py]

    The service is a read-only catalogue behind an API-key check.  Its
    decision logic is string matching over two tables imported from
    [skills_data] ([job_skills], a dict from position names to skill
    lists, and [common_positions], a list of display names).  Both tables
    are taken as parameters here; everything else is transcribed from
    [main.py].

    Python values are represented as follows.
    - [str]: [string]; a character is a code point below 256, on which
      [str.lower] and [str.isspace] are given by the Unicode tables.
    - [dict]: an insertion-ordered association list with distinct keys.
    - [set]: a [gset].
    - a raised exception: the [Raise] branch of [result].

    Two pieces of the web framework decide what a request gets before a
    handler body runs, and are written out after the framework's
    documentation: the header scheme [APIKeyHeader] with its [auto_error]
    flag, and the [Query] declaration with its [min_length]. *)

From Stdlib Require Import Ascii String.
From stdpp Require Import strings list gmap.

Open Scope string_scope.
Open Scope list_scope.

(** ** Python [str] operations *)

Module PyStr.

(** [c.isspace()] for one code point below 256: TAB..CR, FS..US, SPACE,
    NEL and NBSP. *)
Definition isspace (c : ascii) : bool :=
  let n := nat_of_ascii c in
  (((9 <=? n) && (n <=? 13)) || ((28 <=? n) && (n <=? 32))
   || (n =? 133) || (n =? 160))%nat.

(** [c.lower()] for one code point below 256: A..Z and the upper-case
    letters of the Latin-1 supplement (all of U+00C0..U+00DE but the
    multiplication sign U+00D7) move up by 32. *)
Definition lower_char (c : ascii) : ascii :=
  let n := nat_of_ascii c in
  if (((65 <=? n) && (n <=? 90))
      || ((192 <=? n) && (n <=? 222) && negb (n =? 215)))%nat
  then ascii_of_nat (n + 32) else c.

(** [s.lower()] *)
Fixpoint lower (s : string) : string :=
  match s with
  | EmptyString => EmptyString
  | String c s' => String (lower_char c) (lower s')
  end.

(** [s.lstrip()] *)
Fixpoint lstrip (s : string) : string :=
  match s with
  | EmptyString => EmptyString
  | String c s' => if isspace c then lstrip s' else s
  end.

(** [s.rstrip()] *)
Fixpoint rstrip (s : string) : string :=
  match s with
  | EmptyString => EmptyString
  | String c s' =>
      match rstrip s' with
      | EmptyString => if isspace c then EmptyString else String c EmptyString
      | r => String c r
      end
  end.

(** [s.strip()] *)
Definition strip (s : string) : string := rstrip (lstrip s).

(** [bool(s)]: a string is falsy exactly when it is empty. *)
Definition truthy (s : string) : bool :=
  match s with EmptyString => false | String _ _ => true end.

(** [s.startswith(p)] *)
Fixpoint startswith (p s : string) : bool :=
  match p, s with
  | EmptyString, _ => true
  | String _ _, EmptyString => false
  | String a p', String b s' => Ascii.eqb a b && startswith p' s'
  end.

(** [needle in hay] on strings: [needle] occurs at some offset. *)
Fixpoint contains (needle hay : string) : bool :=
  startswith needle hay
  || match hay with
     | EmptyString => false
     | String _ hay' => contains needle hay'
     end.

(** [s.split(sep)] for a one-character separator; never returns the
    empty list ([''.split(',') == ['']]). *)
Fixpoint split (sep : ascii) (s : string) : list string :=
  match s with
  | EmptyString => [EmptyString]
  | String c s' =>
      if Ascii.eqb c sep then EmptyString :: split sep s'
      else match split sep s' with
           | seg :: segs => String c seg :: segs
           | [] => [String c EmptyString]
           end
  end.

(** Every character of [s] is white space (true of the empty string). *)
Fixpoint all_space (s : string) : bool :=
  match s with
  | EmptyString => true
  | String c s' => isspace c && all_space s'
  end.

End PyStr.

(** ** Python [dict] with string keys, in insertion order *)

Module PyDict.

Definition dict (V : Type) : Type := list (string * V).

Definition keys {V} (d : dict V) : list string := d.*1.

(** [d.get(k)]; [d[k]] is [get] with [None] read as [KeyError]. *)
Fixpoint get {V} (k : string) (d : dict V) : option V :=
  match d with
  | [] => None
  | (k', v) :: d' => if String.eqb k k' then Some v else get k d'
  end.

(** [k in d] *)
Definition mem {V} (k : string) (d : dict V) : bool :=
  match get k d with Some _ => true | None => false end.

(** [d[k] = v]: an existing key keeps its place and takes the new
    value, a new key goes last. *)
Fixpoint set {V} (k : string) (v : V) (d : dict V) : dict V :=
  match d with
  | [] => [(k, v)]
  | (k', v') :: d' =>
      if String.eqb k k' then (k, v) :: d' else (k', v') :: set k v d'
  end.

(** [len(d)] *)
Definition len {V} (d : dict V) : nat := length d.

(** The keys of a dict are pairwise distinct. *)
Definition wf {V} (d : dict V) : Prop := NoDup (keys d).

End PyDict.

(** ** Exceptions and results *)

Inductive exn : Type :=
| ValueError (msg : string)
| KeyError (key : string)
| HTTPException (status_code : nat) (detail : string)
| RequestValidationError (param : string).

Inductive result (A : Type) : Type :=
| Return (a : A)
| Raise (e : exn).
Arguments Return {A} a.
Arguments Raise {A} e.

(** Sequencing: the first exception raised ends the computation. *)
#[global] Instance result_ret : MRet result := fun _ a => Return a.
#[global] Instance result_bind : MBind result := fun _ _ f m =>
  match m with
  | Return a => f a
  | Raise e => Raise e
  end.

(** The status line the framework sends for an exception that leaves a
  handler: [HTTPException] carries its own code, a request validation
  error is answered with 422. *)
Definition http_status (e : exn) : nat :=
match e with
| HTTPException code _ => code
| RequestValidationError _ => 422
| ValueError _ | KeyError _ => 500
end.

Import PyStr PyDict.

(** ** The access gate ([main.py], lines 26-50) *)

Definition API_KEY_NAME : string := "X-API-Key".

(** The security scheme object built by [APIKeyHeader(name=..., auto_error=...)]. *)
Record APIKeyHeader : Type := { name : string; auto_error : bool }.

Definition api_key_header : APIKeyHeader :=
  {| name := API_KEY_NAME; auto_error := true |}.

(** The detail text of the framework's own refusal. *)
Definition NOT_AUTHENTICATED : string := "Not authenticated".

(** What the framework's [APIKeyHeader] does when the request reaches a
    dependency on it ([header] is the value of the header called [name h],
    if the request has one): a missing or empty value is refused by the
    scheme itself when [auto_error] is set, with the framework's own
    detail text, and is handed on as [None] otherwise.  The status code of
    that refusal is 403 in older releases of the framework and 401 in
    recent ones, so it is a parameter. *)
Definition APIKeyHeader_call (scheme_status : nat) (h : APIKeyHeader)
    (header : option string) : result (option string) :=
  match header with
  | Some api_key =>
      if truthy api_key then Return (Some api_key)
      else if auto_error h
           then Raise (HTTPException scheme_status NOT_AUTHENTICATED)
           else Return None
  | None =>
      if auto_error h
      then Raise (HTTPException scheme_status NOT_AUTHENTICATED)
      else Return None
  end.

Definition API_KEYS_NOT_SET : string :=
  "API_KEYS environment variable is not set. Please configure it in your .env file or environment.".

(** The segments kept by the set comprehension of line 36. *)
Definition stripped_keys (api_keys_env : string) : list string :=
  strip <$> filter (λ key, truthy (strip key)) (split "," api_keys_env).

(** Lines 33-36, run once when the module is imported: [api_keys_env] is
    [os.getenv("API_KEYS")].  A raised [ValueError] aborts the import, so
    the application object is never served. *)
Definition VALID_API_KEYS (api_keys_env : option string)
    : result (gset string) :=
  match api_keys_env with
  | None => Raise (ValueError API_KEYS_NOT_SET)
  | Some env =>
      if negb (truthy env) then Raise (ValueError API_KEYS_NOT_SET)
      else Return (list_to_set (stripped_keys env))
  end.

Definition INVALID_OR_MISSING : string :=
  "Invalid or missing API Key. Please provide a valid API key in the X-API-Key header.".

(** [verify_api_key], lines 43-50; [api_key] is what the scheme handed on
    ([None in VALID_API_KEYS] is false). *)
Definition verify_api_key (valid_api_keys : gset string)
    (api_key : option string) : result string :=
  match api_key with
  | Some key =>
      if bool_decide (key ∈ valid_api_keys) then Return key
      else Raise (HTTPException 401 INVALID_OR_MISSING)
  | None => Raise (HTTPException 401 INVALID_OR_MISSING)
  end.

(** [Security(verify_api_key)] on a handler: the scheme runs first, then
    [verify_api_key] on its result. *)
Definition authenticate (scheme_status : nat) (scheme : APIKeyHeader)
    (valid_api_keys : gset string) (header : option string) : result string :=
  api_key ← APIKeyHeader_call scheme_status scheme header;
  verify_api_key valid_api_keys api_key.

(** ** The position resolver ([main.py], lines 149-179) *)

Record SkillsResponse : Type :=
  { position : string; skills : list string; skills_count : nat }.

Definition normalize (position : string) : string := strip (lower position).

(** The loop of lines 168-174 over [job_skills.items()]. *)
Fixpoint partial_match (position normalized_position : string)
    (items : dict (list string)) : option SkillsResponse :=
  match items with
  | [] => None
  | (key, skills) :: items' =>
      if contains normalized_position key || contains key normalized_position
      then Some {| position := position; skills := skills;
                   skills_count := length skills |}
      else partial_match position normalized_position items'
  end.

Definition not_found_detail (position : string) : string :=
  "No skills found for position: " +:+ position
  +:+ ". Try /api/positions to see available positions.".

Definition get_skills_for_position (job_skills : dict (list string))
    (position : string) : result SkillsResponse :=
  let normalized_position := normalize position in
  if mem normalized_position job_skills then
    match get normalized_position job_skills with
    | Some skills =>
        Return {| position := position; skills := skills;
                  skills_count := length skills |}
    | None => Raise (KeyError normalized_position)
    end
  else
    match partial_match position normalized_position job_skills with
    | Some response => Return response
    | None => Raise (HTTPException 404 (not_found_detail position))
    end.

(** ** The suggestion engine ([main.py], lines 182-207) *)

Record PositionSuggestionsResponse : Type :=
  { suggestions : list string; query : string }.

(** [Query(..., min_length=n)] on a string parameter: a shorter value
    never reaches the handler body. *)
Definition Query (param : string) (min_length : nat) (value : string)
    : result string :=
  if (String.length value <? min_length)%nat
  then Raise (RequestValidationError param)
  else Return value.

(** The comprehension of lines 199-202 before the slice. *)
Definition matching_positions (common_positions : list string)
    (lower_query : string) : list string :=
  filter (λ position, contains lower_query (lower position)) common_positions.

(** The handler body, lines 192-207. *)
Definition position_suggestions (common_positions : list string)
    (q : string) : PositionSuggestionsResponse :=
  if negb (truthy (strip q)) then {| suggestions := []; query := q |}
  else
    let lower_query := lower q in
    {| suggestions := take 10 (matching_positions common_positions lower_query);
       query := q |}.

(** The handler with its parameter declaration [q: str = Query(...,
    min_length=1)]. *)
Definition get_position_suggestions (common_positions : list string)
    (q : string) : result PositionSuggestionsResponse :=
  q ← Query "q" 1 q;
  Return (position_suggestions common_positions q).

(** ** The combined view ([main.py], lines 276-334) *)

Record AllJobsResponse : Type :=
  { categories : dict (dict (list string)); total_positions : nat }.

(** The [categories] literal of lines 279-289. *)
Definition empty_categories : dict (dict (list string)) :=
  [ ("Software Development", []); ("Data & AI", []); ("DevOps & Cloud", []);
    ("Design", []); ("Management", []); ("Quality Assurance", []);
    ("Security", []); ("Business", []); ("Content & Marketing", []) ].

(** The [category_mapping] literal of lines 291-324. *)
Definition category_mapping : dict (list string) :=
  [ ("Software Development",
      [ "software developer"; "software engineer"; "full stack developer";
        "frontend developer"; "backend developer"; "mobile developer" ]);
    ("Data & AI",
      [ "data scientist"; "data analyst"; "data engineer";
        "machine learning engineer"; "ai engineer" ]);
    ("DevOps & Cloud",
      [ "devops engineer"; "cloud engineer"; "system administrator";
        "network engineer"; "database administrator" ]);
    ("Design", [ "ui/ux designer"; "graphic designer"; "web designer" ]);
    ("Management", [ "product manager"; "project manager"; "scrum master" ]);
    ("Quality Assurance",
      [ "quality assurance engineer"; "qa tester"; "qa engineer" ]);
    ("Security", [ "security engineer" ]);
    ("Business",
      [ "business analyst"; "marketing manager"; "sales manager";
        "customer success manager"; "hr manager"; "financial analyst";
        "accountant" ]);
    ("Content & Marketing",
      [ "technical writer"; "content writer"; "seo specialist";
        "digital marketing specialist" ]) ].

(** [categories[category][position] = value]: the inner dict is found
    first ([KeyError] if the category is unknown) and updated in place. *)
Definition setitem2 (categories : dict (dict (list string)))
    (category position : string) (value : list string)
    : result (dict (dict (list string))) :=
  match get category categories with
  | Some inner => Return (set category (set position value inner) categories)
  | None => Raise (KeyError category)
  end.

(** The inner loop, lines 327-329, for one category. *)
Fixpoint fill_category (job_skills : dict (list string)) (category : string)
    (positions : list string) (categories : dict (dict (list string)))
    : result (dict (dict (list string))) :=
  match positions with
  | [] => Return categories
  | position :: positions' =>
      categories' ←
        (if mem position job_skills then
           match get position job_skills with
           | Some value => setitem2 categories category position value
           | None => Raise (KeyError position)
           end
         else Return categories);
      fill_category job_skills category positions' categories'
  end.

(** The outer loop, line 326, over [category_mapping.items()]. *)
Fixpoint fill_categories (job_skills : dict (list string))
    (items : dict (list string)) (categories : dict (dict (list string)))
    : result (dict (dict (list string))) :=
  match items with
  | [] => Return categories
  | (category, positions) :: items' =>
      categories' ← fill_category job_skills category positions categories;
      fill_categories job_skills items' categories'
  end.

Definition get_all_jobs_with_skills (job_skills : dict (list string))
    : result AllJobsResponse :=
  categories ← fill_categories job_skills category_mapping empty_categories;
  Return {| categories := categories; total_positions := len job_skills |}.

(** ** Notions the statements below are phrased with *)

(** [needle] occurs in [hay] as a contiguous block. *)
Definition is_substring (needle hay : string) : Prop :=
  ∃ before after, hay = before +:+ needle +:+ after.

(** The bidirectional test of the resolver's fallback. *)
Definition related (normalized_position key : string) : Prop :=
  is_substring normalized_position key ∨ is_substring key normalized_position.

(** [position] is listed under [category] in a combined view. *)
Definition listed (view : dict (dict (list string)))
    (category position : string) : Prop :=
  ∃ inner, get category view = Some inner ∧ mem position inner = true.

(** [position] is listed under [category] in the hand-written mapping. *)
Definition mapped (mapping : dict (list string))
    (category position : string) : Prop :=
  ∃ positions, get category mapping = Some positions ∧ position ∈ positions.

(** Number of positions that a combined view shows, over all categories. *)
Definition positions_shown (view : dict (dict (list string))) : nat :=
  sum_list (len ∘ snd <$> view).

(** What the inner loop leaves in the dict of its category, started from
    [inner]: each position that is a key of the catalogue is assigned that
    key's skills, in the order of the list. *)
Fixpoint fill_inner (job_skills : dict (list string))
    (positions : list string) (inner : dict (list string))
    : dict (list string) :=
  match positions with
  | [] => inner
  | position :: positions' =>
      fill_inner job_skills positions'
        (match get position job_skills with
         | Some value => set position value inner
         | None => inner
         end)
  end.

(** The view that lists, under every category of [mapping], the mapped
    positions that the catalogue knows. *)
Definition combined_view (job_skills : dict (list string))
    (mapping : dict (list string)) : dict (dict (list string)) :=
  (λ item, (item.1, fill_inner job_skills item.2 [])) <$> mapping.

(** The position names of a mapping, over all its categories. *)
Definition mapped_positions (mapping : dict (list string)) : list string :=
  mjoin (snd <$> mapping).

(** ** The listing endpoints ([main.py], lines 140-146 and 210-273) *)

Module Positions.

Record PositionsResponse : Type :=
  { positions : list string; total_count : nat }.

(** [get_all_positions], lines 141-146. *)
Definition get_all_positions (common_positions : list string)
    : PositionsResponse :=
  {| positions := common_positions; total_count := length common_positions |}.

End Positions.

Module Categories.

Record JobCategoryResponse : Type :=
  { category : string; positions : list string }.

(** The [categories] literal of [get_job_categories], lines 213-268. *)
Definition categories : dict (list string) :=
  [ ("Software Development",
      [ "Software Developer"; "Software Engineer"; "Full Stack Developer";
        "Frontend Developer"; "Backend Developer"; "Mobile Developer" ]);
    ("Data & AI",
      [ "Data Scientist"; "Data Analyst"; "Data Engineer";
        "Machine Learning Engineer"; "AI Engineer" ]);
    ("DevOps & Cloud",
      [ "DevOps Engineer"; "Cloud Engineer"; "System Administrator";
        "Network Engineer"; "Database Administrator" ]);
    ("Design", [ "UI/UX Designer"; "Graphic Designer"; "Web Designer" ]);
    ("Management", [ "Product Manager"; "Project Manager"; "Scrum Master" ]);
    ("Quality Assurance", [ "Quality Assurance Engineer"; "QA Tester" ]);
    ("Security", [ "Security Engineer" ]);
    ("Business",
      [ "Business Analyst"; "Marketing Manager"; "Sales Manager";
        "Customer Success Manager"; "HR Manager"; "Financial Analyst";
        "Accountant" ]);
    ("Content & Marketing",
      [ "Technical Writer"; "Content Writer"; "SEO Specialist";
        "Digital Marketing Specialist" ]) ].

(** [get_job_categories], lines 270-273: one record per item, in order. *)
Definition get_job_categories : list JobCategoryResponse :=
  (λ item, {| category := item.1; positions := item.2 |}) <$> categories.

End Categories.

(** ** Key generation ([main.py], lines 38-41, and [generate_api_key.py]) *)

Module PyBytes.

(** One digit of [bytes.hex()], for a value below 16. *)
Definition hex_digit (n : nat) : ascii :=
  ascii_of_nat (if (n <? 10)%nat then 48 + n else 87 + n).

(** [bs.hex()]: two lower-case digits per byte, the high one first. *)
Fixpoint hex (bs : list Byte.byte) : string :=
  match bs with
  | [] => EmptyString
  | b :: bs' =>
      String (hex_digit (Byte.to_nat b / 16))
        (String (hex_digit (Byte.to_nat b mod 16)) (hex bs'))
  end.

End PyBytes.

(** [secrets.token_hex(nbytes)] is [token_bytes(nbytes).hex()]; the random
    bytes drawn by [token_bytes] are the argument here. *)
Definition token_hex (token_bytes : list Byte.byte) : string :=
  PyBytes.hex token_bytes.

(** Iterating over a [str] yields its characters as strings of length 1. *)
Definition iter_str (s : string) : list string :=
  (λ c, String c EmptyString) <$> list_ascii_of_string s.

(** [generate_api_key] of [main.py], line 41:
    [f"sk_{''.join(secrets.token_hex(16))}"]. *)
Definition generate_api_key (token_bytes : list Byte.byte) : string :=
  "sk_" +:+ String.concat EmptyString (iter_str (token_hex token_bytes)).

Module GenerateApiKey.

(** [generate_api_key] of [generate_api_key.py], line 8:
    [f"sk_{secrets.token_hex(16)}"]. *)
Definition generate_api_key (token_bytes : list Byte.byte) : string :=
  "sk_" +:+ token_hex token_bytes.

End GenerateApiKey.

(** ** The key used by the test script ([test_api.py], lines 15-25) *)

Module TestApi.

(** Line 15: [os.getenv("API_KEYS", "").split(",")[0].strip()]; [None]
    stands for the [IndexError] of an empty list. *)
Definition API_KEY (api_keys_env : option string) : option string :=
  strip <$> head (split "," (default EmptyString api_keys_env)).

(** Line 25: the value of the [X-API-Key] header sent by [test_endpoint],
    if it sends one. *)
Definition headers (api_key : string) (requires_auth : bool) : option string :=
  if requires_auth then Some api_key else None.

End TestApi.

(** ** Further notions *)

(** [c] is one of the characters of [s]. *)
Fixpoint has_char (c : ascii) (s : string) : bool :=
  match s with
  | EmptyString => false
  | String c' s' => Ascii.eqb c c' || has_char c s'
  end.

(** No character of [s] is white space. *)
Fixpoint no_space (s : string) : bool :=
  match s with
  | EmptyString => true
  | String c s' => negb (isspace c) && no_space s'
  end.

(** [c] is one of [0-9a-f]. *)
Definition is_hex_digit (c : ascii) : bool :=
  let n := nat_of_ascii c in
  (((48 <=? n) && (n <=? 57)) || ((97 <=? n) && (n <=? 102)))%nat.

(** Every character of [s] is one of [0-9a-f]. *)
Fixpoint all_hex (s : string) : bool :=
  match s with
  | EmptyString => true
  | String c s' => is_hex_digit c && all_hex s'
  end.

(** The value of a hexadecimal digit. *)
Definition unhex_digit (c : ascii) : nat :=
  let n := nat_of_ascii c in
  if (n <? 58)%nat then n - 48 else n - 87.

(** Reading back what [bytes.hex()] wrote, two digits at a time. *)
Fixpoint unhex (s : string) : option (list Byte.byte) :=
  match s with
  | EmptyString => Some []
  | String hi (String lo s') =>
      b ← Byte.of_nat (16 * unhex_digit hi + unhex_digit lo);
      bs ← unhex s';
      Some (b :: bs)
  | String _ EmptyString => None
  end.

(** A presented key is a usable configuration entry: it is not empty, has
    no comma and no white space at either end. *)
Definition clean_key (key : string) : Prop :=
  key ≠ EmptyString ∧ has_char "," key = false ∧ strip key = key.

(** What the resolver answers once the echoed label is left out: the
    skills, or the status of the refusal. *)
Definition outcome (r : result SkillsResponse) : list string + nat :=
  match r with
  | Return response => inl (skills response)
  | Raise e => inr (http_status e)
  end.

(** A small catalogue for examples. *)
Definition sample_skills : dict (list string) :=
  [ ("software developer", ["Python"; "SQL"]);
    ("data scientist", ["Python"; "Statistics"; "Machine Learning"]);
    ("devops engineer", ["Docker"; "Kubernetes"]);
    ("developer", ["Git"]) ].

Definition sample_positions : list string :=
  [ "Software Developer"; "Data Scientist"; "DevOps Engineer";
    "Database Administrator" ].

(** * Examples: the functions run *)

Example lower_mixed : lower "Senior DevOps" = "senior devops".
Proof. reflexivity. Qed.

Example strip_both : strip "  qa tester  " = "qa tester".
Proof. reflexivity. Qed.

Example split_keys : split "," "sk_a, sk_b,,sk_a" = ["sk_a"; " sk_b"; ""; "sk_a"].
Proof. reflexivity. Qed.

Example resolve_scenario :
  get_skills_for_position [("software developer", ["Python"; "SQL"])]
    "Software Developer"
  = Return {| position := "Software Developer"; skills := ["Python"; "SQL"];
              skills_count := 2 |}.
Proof. reflexivity. Qed.

Example suggest_data :
  get_position_suggestions sample_positions "data"
  = Return {| suggestions := ["Data Scientist"; "Database Administrator"];
              query := "data" |}.
Proof. vm_compute. reflexivity. Qed.

Example all_jobs_sample :
  get_all_jobs_with_skills sample_skills
  = Return
      {| categories :=
           [ ("Software Development",
               [("software developer", ["Python"; "SQL"])]);
             ("Data & AI",
               [("data scientist", ["Python"; "Statistics"; "Machine Learning"])]);
             ("DevOps & Cloud", [("devops engineer", ["Docker"; "Kubernetes"])]);
             ("Design", []); ("Management", []); ("Quality Assurance", []);
             ("Security", []); ("Business", []); ("Content & Marketing", []) ];
         total_positions := 4 |}.
Proof. vm_compute. reflexivity. Qed.

(** * Facts about the string operations *)

Section StringFacts.

Implicit Types (s p needle hay : string) (c : ascii).

Lemma append_nil_l s : EmptyString +:+ s = s.
Proof. reflexivity. Qed.

Lemma append_cons c s p : String c s +:+ p = String c (s +:+ p).
Proof. reflexivity. Qed.

Lemma append_nil_r s : s +:+ EmptyString = s.
Proof. induction s as [|c s IH]; [done|]. by rewrite append_cons, IH. Qed.

Lemma append_assoc s p hay : (s +:+ p) +:+ hay = s +:+ p +:+ hay.
Proof. induction s as [|c s IH]; [done|]. by rewrite !append_cons, IH. Qed.

Lemma startswith_spec p s :
  startswith p s = true ↔ ∃ rest, s = p +:+ rest.
Proof.
  revert s. induction p as [|a p IH]; intros s; simpl.
  - split; [intros _; by exists s | done].
  - destruct s as [|b s].
    + split; [done | intros [rest Hrest]; discriminate].
    + rewrite andb_true_iff, Ascii.eqb_eq, IH. split.
      * intros [-> [rest ->]]. by exists rest.
      * intros [rest Hrest]. injection Hrest as -> ->. eauto.
Qed.

Lemma contains_spec needle hay :
  contains needle hay = true ↔ is_substring needle hay.
Proof.
  unfold is_substring. induction hay as [|b hay IH].
  - simpl. rewrite orb_false_r, startswith_spec. split.
    + intros [rest Hrest]. by exists EmptyString, rest.
    + intros [before [after Heq]].
      destruct before; [eauto | discriminate].
  - cbn [contains]. rewrite orb_true_iff, startswith_spec, IH. split.
    + intros [[rest Hrest] | [before [after Heq]]].
      * by exists EmptyString, rest.
      * exists (String b before), after. by rewrite append_cons, Heq.
    + intros [before [after Heq]]. destruct before as [|b' before].
      * left. by exists after.
      * right. rewrite append_cons in Heq. injection Heq as -> ->. eauto.
Qed.

Lemma contains_false needle hay :
  contains needle hay = false ↔ ¬ is_substring needle hay.
Proof. rewrite <-contains_spec. by destruct (contains needle hay). Qed.

Lemma contains_empty hay : contains EmptyString hay = true.
Proof. by destruct hay. Qed.

Lemma is_substring_refl s : is_substring s s.
Proof.
  exists EmptyString, EmptyString. by rewrite append_nil_l, append_nil_r.
Qed.

Lemma is_substring_app before needle after :
  is_substring needle (before +:+ needle +:+ after).
Proof. by exists before, after. Qed.

Lemma truthy_false s : truthy s = false ↔ s = EmptyString.
Proof. by destruct s. Qed.

Lemma lstrip_all_space s : all_space s = true → lstrip s = EmptyString.
Proof.
  induction s as [|c s IH]; simpl; [done|].
  destruct (isspace c); simpl; [exact IH | done].
Qed.

Lemma lstrip_empty_inv s : lstrip s = EmptyString → all_space s = true.
Proof.
  induction s as [|c s IH]; simpl; [done|].
  destruct (isspace c); simpl; [exact IH | done].
Qed.

Lemma lstrip_head s :
  match lstrip s with
  | EmptyString => True
  | String c _ => isspace c = false
  end.
Proof.
  induction s as [|c s IH]; simpl; [done|].
  destruct (isspace c) eqn:Hc; [exact IH | done].
Qed.

Lemma rstrip_empty_inv s : rstrip s = EmptyString → all_space s = true.
Proof.
  induction s as [|c s IH]; simpl; [done|].
  destruct (rstrip s) eqn:Hr; [|done].
  destruct (isspace c); [intros _; by apply IH | done].
Qed.

(** [q.strip()] is empty exactly for the empty and the all-whitespace
    strings. *)
Lemma strip_empty_iff s : strip s = EmptyString ↔ all_space s = true.
Proof.
  unfold strip. split.
  - intros Hr. apply lstrip_empty_inv.
    pose proof (lstrip_head s) as Hhead.
    apply rstrip_empty_inv in Hr.
    destruct (lstrip s) as [|c t]; [done|].
    simpl in Hr. rewrite Hhead in Hr. done.
  - intros Hs. by rewrite (lstrip_all_space s Hs).
Qed.

End StringFacts.

(** * Facts about dicts *)

Section DictFacts.

Context {V : Type}.
Implicit Types (d : dict V) (k : string) (v : V).

Lemma get_None d k : get k d = None ↔ k ∉ keys d.
Proof.
  unfold keys. induction d as [|[k' v'] d IH]; simpl.
  - split; [intros _; apply not_elem_of_nil | done].
  - rewrite not_elem_of_cons. destruct (String.eqb_spec k k') as [->|Hne].
    + split; [done | intros [? _]; done].
    + rewrite IH. tauto.
Qed.

Lemma mem_true d k : mem k d = true ↔ k ∈ keys d.
Proof.
  unfold mem. destruct (get k d) eqn:Hget.
  - split; [intros _ | done].
    destruct (decide (k ∈ keys d)) as [|Hn]; [done|].
    apply get_None in Hn. congruence.
  - apply get_None in Hget. split; [done | intros ?; done].
Qed.

Lemma mem_false d k : mem k d = false ↔ k ∉ keys d.
Proof. rewrite <-mem_true. by destruct (mem k d). Qed.

Lemma get_elem_of d k v : get k d = Some v → (k, v) ∈ d.
Proof.
  induction d as [|[k' v'] d IH]; simpl; [done|].
  destruct (String.eqb_spec k k') as [->|Hne].
  - intros [= ->]. apply list_elem_of_here.
  - intros Hget. apply list_elem_of_further. by apply IH.
Qed.

(** In a dict, an item determines what its key looks up. *)
Lemma elem_of_get d k v : wf d → (k, v) ∈ d → get k d = Some v.
Proof.
  unfold wf, keys. induction d as [|[k' v'] d IH]; simpl.
  - intros _ Hin. by apply elem_of_nil in Hin.
  - rewrite NoDup_cons. intros [Hfresh Hnodup] Hin.
    apply elem_of_cons in Hin as [[= -> ->] | Hin].
    + by rewrite String.eqb_refl.
    + destruct (String.eqb_spec k k') as [->|Hne]; [|by apply IH].
      exfalso. apply Hfresh. apply list_elem_of_fmap. by exists (k', v).
Qed.

Lemma get_app_fresh d1 d2 k : k ∉ keys d1 → get k (d1 ++ d2) = get k d2.
Proof.
  unfold keys. induction d1 as [|[k' v'] d1 IH]; simpl; [done|].
  rewrite not_elem_of_cons. intros [Hne Hfresh].
  destruct (String.eqb_spec k k'); [done | by apply IH].
Qed.

Lemma set_app_fresh d1 d2 k v v' :
  k ∉ keys d1 → set k v (d1 ++ (k, v') :: d2) = d1 ++ (k, v) :: d2.
Proof.
  unfold keys. induction d1 as [|[k1 v1] d1 IH]; simpl.
  - intros _. by rewrite String.eqb_refl.
  - rewrite not_elem_of_cons. intros [Hne Hfresh].
    destruct (String.eqb_spec k k1); [done|]. by rewrite IH.
Qed.

Lemma set_fresh d k v : k ∉ keys d → set k v d = d ++ [(k, v)].
Proof.
  unfold keys. induction d as [|[k1 v1] d IH]; simpl; [done|].
  rewrite not_elem_of_cons. intros [Hne Hfresh].
  destruct (String.eqb_spec k k1); [done|]. by rewrite IH.
Qed.

End DictFacts.

(** * The access gate *)

Section Gate.

Variable scheme_status : nat.
Variable valid_api_keys : gset string.

(** No key kept by the comprehension of line 36 is empty. *)
Lemma stripped_keys_nonempty api_keys_env key :
  key ∈ stripped_keys api_keys_env → key ≠ EmptyString.
Proof.
  unfold stripped_keys. rewrite list_elem_of_fmap.
  intros [segment [-> Hin]]. apply list_elem_of_filter in Hin as [Hkeep _].
  intros Hempty. rewrite Hempty in Hkeep. done.
Qed.

(** The gate lets a request through exactly when it presents a non-empty
    key of the valid set, and hands that key to the handler. *)
Lemma authenticate_accepts header key :
  authenticate scheme_status api_key_header valid_api_keys header = Return key
  ↔ header = Some key ∧ key ≠ EmptyString ∧ key ∈ valid_api_keys.
Proof.
  unfold authenticate, APIKeyHeader_call, verify_api_key. simpl.
  destruct header as [api_key|]; simpl;
    [|split; [done | by intros [? _]]].
  destruct api_key as [|c api_key]; simpl.
  { split; [done | intros [[= <-] [Hne _]]; done]. }
  case_bool_decide as Hin.
  - split; [intros [= <-]; done | by intros [[= <-] _]].
  - split; [done | intros [[= <-] [_ Hkey]]; done].
Qed.

(** A presented key outside the valid set is answered by [verify_api_key]. *)
Lemma authenticate_rejects_invalid key :
  key ≠ EmptyString → key ∉ valid_api_keys →
  authenticate scheme_status api_key_header valid_api_keys (Some key)
  = Raise (HTTPException 401 INVALID_OR_MISSING).
Proof.
  intros Hne Hout. unfold authenticate, APIKeyHeader_call, verify_api_key.
  destruct key as [|c key]; [done|]. simpl. by rewrite bool_decide_eq_false_2.
Qed.

(** With [auto_error=False] on the scheme, every refusal would be the one
    of [verify_api_key]. *)
Lemma authenticate_without_auto_error header :
  let scheme := {| name := API_KEY_NAME; auto_error := false |} in
  (∃ key, authenticate scheme_status scheme valid_api_keys header = Return key)
  ∨ authenticate scheme_status scheme valid_api_keys header
    = Raise (HTTPException 401 INVALID_OR_MISSING).
Proof.
  unfold authenticate, APIKeyHeader_call, verify_api_key. simpl.
  destruct header as [[|c api_key]|]; simpl; [by right| |by right].
  case_bool_decide; [left; eauto | by right].
Qed.

(** C1 (at the failing input, a request without the header): the request
    is refused by the header scheme, not by [verify_api_key]; the answer
    carries the scheme's own detail text, which differs from the text sent
    for a wrong key, so a missing key and an invalid key are told apart. *)
Theorem authenticate_missing_header :
  authenticate scheme_status api_key_header valid_api_keys None
  = Raise (HTTPException scheme_status NOT_AUTHENTICATED)
  ∧ authenticate scheme_status api_key_header valid_api_keys None
    ≠ Raise (HTTPException 401 INVALID_OR_MISSING)
  ∧ authenticate scheme_status api_key_header {["sk_abc"]} (Some "sk_wrong")
    = Raise (HTTPException 401 INVALID_OR_MISSING)
  ∧ authenticate scheme_status api_key_header {["sk_abc"]} None
    ≠ authenticate scheme_status api_key_header {["sk_abc"]} (Some "sk_wrong").
Proof.
  split_and!; [done | | | ]; by vm_compute.
Qed.

End Gate.

(** * Start-up: building the set of valid keys *)

Section Startup.

(** C2 (as amended): start-up is aborted exactly when the variable is
    absent or is the empty string; for every other value the service
    starts, with the set of the trimmed non-empty segments as its valid
    keys, whether or not that set is empty. *)
Theorem startup_fails_iff (api_keys_env : option string) :
  ((∃ e, VALID_API_KEYS api_keys_env = Raise e)
   ↔ api_keys_env = None ∨ api_keys_env = Some EmptyString)
  ∧ (∀ e, VALID_API_KEYS api_keys_env = Raise e → e = ValueError API_KEYS_NOT_SET)
  ∧ (∀ env, api_keys_env = Some env → env ≠ EmptyString →
       VALID_API_KEYS api_keys_env = Return (list_to_set (stripped_keys env))).
Proof.
  unfold VALID_API_KEYS. destruct api_keys_env as [[|c env]|]; simpl.
  - split_and!; [| by intros e [= <-] | by intros env [= <-]].
    split; [by right | by eexists].
  - split_and!; [| done | by intros env' [= <-]].
    split; [intros [e He]; done | intros [|]; done].
  - split_and!; [| by intros e [= <-] | done].
    split; [by left | by eexists].
Qed.

(** The amended statement at a value that yields no key. *)
Lemma startup_fails_iff_witness :
  VALID_API_KEYS (Some " , ") = Return (list_to_set (stripped_keys " , "))
  ∧ stripped_keys " , " = [].
Proof.
  split; [|reflexivity].
  apply (proj2 (proj2 (startup_fails_iff (Some " , "))) " , "); done.
Defined.

(** C2 (as stated) fails at [API_KEYS=","]: splitting, trimming and
    dropping empty segments leaves no key, and start-up is not aborted. *)
Lemma startup_with_no_keys :
  stripped_keys "," = []
  ∧ VALID_API_KEYS (Some ",") = Return ∅
  ∧ ¬ ∃ e, VALID_API_KEYS (Some ",") = Raise e.
Proof.
  split_and!; [reflexivity | reflexivity | intros [e He]; discriminate].
Qed.

End Startup.

(** * The position resolver *)

Section Resolver.

Variable job_skills : dict (list string).

Implicit Types (position key : string) (items : dict (list string)).

Lemma related_bool normalized_position key :
  contains normalized_position key || contains key normalized_position = true
  ↔ related normalized_position key.
Proof. unfold related. by rewrite orb_true_iff, !contains_spec. Qed.

Lemma related_bool_false normalized_position key :
  contains normalized_position key || contains key normalized_position = false
  → ¬ related normalized_position key.
Proof. intros Htest Hrel. apply related_bool in Hrel. congruence. Qed.

(** The loop stops at the first item whose key passes the test. *)
Lemma partial_match_first position normalized_position before key skills after :
  (∀ key' skills', (key', skills') ∈ before →
     ¬ related normalized_position key') →
  related normalized_position key →
  partial_match position normalized_position (before ++ (key, skills) :: after)
  = Some {| position := position; skills := skills;
            skills_count := length skills |}.
Proof.
  intros Hbefore Hkey. induction before as [|[key' skills'] before IH]; simpl.
  - apply related_bool in Hkey. by rewrite Hkey.
  - destruct (contains normalized_position key' || contains key' normalized_position)
      eqn:Htest.
    + exfalso. apply (Hbefore key' skills'); [apply list_elem_of_here|].
      by apply related_bool.
    + apply IH. intros k s Hin. apply (Hbefore k s). by apply list_elem_of_further.
Qed.

(** The loop falls through exactly when no key passes the test. *)
Lemma partial_match_None position normalized_position items :
  partial_match position normalized_position items = None
  ↔ ∀ key, key ∈ keys items → ¬ related normalized_position key.
Proof.
  unfold keys. induction items as [|[key' skills'] items IH]; simpl.
  - split; [intros _ key Hin; by apply elem_of_nil in Hin | done].
  - destruct (contains normalized_position key' || contains key' normalized_position)
      eqn:Htest.
    + split; [done|]. intros Hnone. exfalso.
      apply (Hnone key'); [apply list_elem_of_here | by apply related_bool].
    + rewrite IH. split.
      * intros Hrest key Hin. apply elem_of_cons in Hin as [->|Hin]; [|by apply Hrest].
        rewrite <-related_bool, Htest. done.
      * intros Hall key Hin. apply Hall. by apply list_elem_of_further.
Qed.

(** Whatever the loop returns echoes the caller's string and counts the
    skills it carries. *)
Lemma partial_match_shape position normalized_position items response :
  partial_match position normalized_position items = Some response →
  ∃ skills, response = {| position := position; skills := skills;
                          skills_count := length skills |}.
Proof.
  induction items as [|[key' skills'] items IH]; simpl; [done|].
  destruct (contains normalized_position key' || contains key' normalized_position);
    [intros [= <-]; by eexists | exact IH].
Qed.

(** The indexing of line 160 never raises: it is guarded by line 159. *)
Lemma get_skills_for_position_exact position skills :
  get (normalize position) job_skills = Some skills →
  get_skills_for_position job_skills position
  = Return {| position := position; skills := skills;
              skills_count := length skills |}.
Proof.
  intros Hget. unfold get_skills_for_position, mem. by rewrite Hget.
Qed.

(** A key related to the normalized input is enough for an answer. *)
Lemma get_skills_for_position_succeeds position key :
  key ∈ keys job_skills → related (normalize position) key →
  ∃ skills,
    get_skills_for_position job_skills position
    = Return {| position := position; skills := skills;
                skills_count := length skills |}.
Proof.
  intros Hin Hrel. unfold get_skills_for_position, mem.
  destruct (get (normalize position) job_skills) as [skills|]; [by eexists|].
  destruct (partial_match position (normalize position) job_skills)
    as [response|] eqn:Hloop.
  - apply partial_match_shape in Hloop as [skills ->]. by exists skills.
  - exfalso. rewrite partial_match_None in Hloop. by apply (Hloop key).
Qed.

(** C3: when the normalized input is a key of the catalogue, the answer is
    that key's entry, whatever else the fallback would have matched: the
    skill list of the entry, its length as [skills_count], and the
    caller's own string, not the normalized one, as [position]. *)
Theorem resolve_exact_match position skills :
  wf job_skills → (normalize position, skills) ∈ job_skills →
  get_skills_for_position job_skills position
  = Return {| position := position; skills := skills;
              skills_count := length skills |}.
Proof.
  intros Hwf Hin. apply get_skills_for_position_exact. by apply elem_of_get.
Qed.

(** C4: without an exact match, the answer is the first item, in the
    order of the catalogue, whose key contains the normalized input or is
    contained in it; so ["dev"] is answered by a catalogue that has the key
    ["developer"], and ["senior software developer"] by one that has the
    key ["software developer"]. *)
Theorem resolve_first_partial_match :
  (∀ position before key skills after,
     mem (normalize position) job_skills = false →
     job_skills = before ++ (key, skills) :: after →
     (∀ key' skills', (key', skills') ∈ before →
        ¬ related (normalize position) key') →
     related (normalize position) key →
     get_skills_for_position job_skills position
     = Return {| position := position; skills := skills;
                 skills_count := length skills |})
  ∧ ("developer" ∈ keys job_skills →
     ∃ skills, get_skills_for_position job_skills "dev"
               = Return {| position := "dev"; skills := skills;
                           skills_count := length skills |})
  ∧ ("software developer" ∈ keys job_skills →
     ∃ skills, get_skills_for_position job_skills "senior software developer"
               = Return {| position := "senior software developer";
                           skills := skills;
                           skills_count := length skills |}).
Proof.
  split_and!.
  - intros position before key skills after Hmiss Hitems Hbefore Hkey.
    unfold get_skills_for_position. rewrite Hmiss.
    rewrite Hitems at 1. by rewrite (partial_match_first _ _ _ _ _ _ Hbefore Hkey).
  - intros Hin. apply (get_skills_for_position_succeeds "dev" "developer" Hin).
    left. apply contains_spec. reflexivity.
  - intros Hin.
    apply (get_skills_for_position_succeeds "senior software developer"
             "software developer" Hin).
    right. apply contains_spec. reflexivity.
Qed.

(** C5: when the normalized input is no key and is related to no key, the
    call ends in a 404 whose detail quotes the caller's string and names
    the listing endpoint. *)
Theorem resolve_not_found position :
  mem (normalize position) job_skills = false →
  (∀ key, key ∈ keys job_skills → ¬ related (normalize position) key) →
  get_skills_for_position job_skills position
  = Raise (HTTPException 404 (not_found_detail position))
  ∧ http_status (HTTPException 404 (not_found_detail position)) = 404
  ∧ is_substring position (not_found_detail position)
  ∧ is_substring "/api/positions" (not_found_detail position).
Proof.
  intros Hmiss Hnone. split_and!.
  - unfold get_skills_for_position. rewrite Hmiss.
    apply partial_match_None with (position := position) in Hnone.
    by rewrite Hnone.
  - reflexivity.
  - apply is_substring_app.
  - exists ("No skills found for position: " +:+ position +:+ ". Try "),
      " to see available positions.".
    unfold not_found_detail. by rewrite !append_assoc.
Qed.

(** C9: an input that normalizes to the empty string is never answered
    with a 404 by a non-empty catalogue.  The empty string occurs in every
    key, so the fallback loop stops at the first item; that item's skills
    are the answer (unless the empty string is itself a key, which the
    exact step then answers), and the caller's string is echoed. *)
Theorem resolve_blank_position position key0 skills0 rest :
  normalize position = EmptyString →
  job_skills = (key0, skills0) :: rest →
  partial_match position (normalize position) job_skills
  = Some {| position := position; skills := skills0;
            skills_count := length skills0 |}
  ∧ (∃ skills, get_skills_for_position job_skills position
               = Return {| position := position; skills := skills;
                           skills_count := length skills |})
  ∧ (mem EmptyString job_skills = false →
     get_skills_for_position job_skills position
     = Return {| position := position; skills := skills0;
                 skills_count := length skills0 |}).
Proof.
  intros Hblank Hitems.
  assert (partial_match position (normalize position) job_skills
          = Some {| position := position; skills := skills0;
                    skills_count := length skills0 |}) as Hloop.
  { rewrite Hblank, Hitems. simpl. by rewrite contains_empty. }
  split_and!; [done | |].
  - unfold get_skills_for_position, mem. rewrite Hloop.
    destruct (get (normalize position) job_skills) as [skills|]; by eexists.
  - intros Hmiss. unfold get_skills_for_position. by rewrite Hblank, Hmiss, <-Hblank, Hloop.
Qed.

End Resolver.

(** C3 on a catalogue where an earlier key, ["developer"], passes the
    fallback test for the same input. *)
Lemma resolve_exact_match_witness :
  get_skills_for_position
    [("developer", ["Git"]); ("software developer", ["Python"; "SQL"])]
    " Software Developer"
  = Return {| position := " Software Developer"; skills := ["Python"; "SQL"];
              skills_count := 2 |}.
Proof.
  apply (resolve_exact_match
           [("developer", ["Git"]); ("software developer", ["Python"; "SQL"])]
           " Software Developer" ["Python"; "SQL"]).
  - apply (bool_decide_unpack _). vm_compute. reflexivity.
  - apply (bool_decide_unpack _). vm_compute. reflexivity.
Defined.

(** C4 on the sample catalogue: ["engineer"] is no key, the first two keys
    are unrelated to it, the third contains it. *)
Lemma resolve_first_partial_match_witness :
  get_skills_for_position sample_skills " Engineer"
  = Return {| position := " Engineer"; skills := ["Docker"; "Kubernetes"];
              skills_count := 2 |}
  ∧ (∃ skills, get_skills_for_position sample_skills "dev"
               = Return {| position := "dev"; skills := skills;
                           skills_count := length skills |}).
Proof.
  split.
  - apply (proj1 (resolve_first_partial_match sample_skills) " Engineer"
             [ ("software developer", ["Python"; "SQL"]);
               ("data scientist", ["Python"; "Statistics"; "Machine Learning"]) ]
             "devops engineer" ["Docker"; "Kubernetes"] [("developer", ["Git"])]).
    + reflexivity.
    + reflexivity.
    + intros key' skills' Hin. apply related_bool_false. revert Hin.
      rewrite !elem_of_cons, elem_of_nil.
      intros [[= -> ->]|[[= -> ->]|[]]]; vm_compute; reflexivity.
    + left. apply contains_spec. vm_compute. reflexivity.
  - apply (proj1 (proj2 (resolve_first_partial_match sample_skills))).
    apply (bool_decide_unpack _). vm_compute. reflexivity.
Defined.

(** C5 on the sample catalogue. *)
Lemma resolve_not_found_witness :
  get_skills_for_position sample_skills "Pilot"
  = Raise (HTTPException 404
      "No skills found for position: Pilot. Try /api/positions to see available positions.").
Proof.
  apply (resolve_not_found sample_skills "Pilot").
  - reflexivity.
  - intros key Hin. apply related_bool_false. revert Hin.
    unfold keys, sample_skills. simpl. rewrite !elem_of_cons, elem_of_nil.
    intros [->|[->|[->|[->|[]]]]]; vm_compute; reflexivity.
Defined.

(** C9 on the sample catalogue, with three blanks as the input. *)
Lemma resolve_blank_position_witness :
  get_skills_for_position sample_skills "   "
  = Return {| position := "   "; skills := ["Python"; "SQL"];
              skills_count := 2 |}.
Proof.
  apply (resolve_blank_position sample_skills "   " "software developer"
           ["Python"; "SQL"]
           [ ("data scientist", ["Python"; "Statistics"; "Machine Learning"]);
             ("devops engineer", ["Docker"; "Kubernetes"]);
             ("developer", ["Git"]) ]).
  - reflexivity.
  - reflexivity.
  - reflexivity.
Defined.

(** * The suggestion engine *)

Section Suggestions.

Variable common_positions : list string.

Implicit Types (q name : string).

(** The comprehension keeps the names that contain the lower-cased query
    once lower-cased themselves. *)
Lemma elem_of_matching_positions lower_query name :
  name ∈ matching_positions common_positions lower_query
  ↔ name ∈ common_positions ∧ is_substring lower_query (lower name).
Proof.
  unfold matching_positions. rewrite list_elem_of_filter, Is_true_true, contains_spec.
  tauto.
Qed.

Lemma matching_positions_sublist lower_query :
  matching_positions common_positions lower_query `sublist_of` common_positions.
Proof. apply sublist_filter. Qed.

Lemma position_suggestions_blank q :
  all_space q = true →
  position_suggestions common_positions q = {| suggestions := []; query := q |}.
Proof.
  intros Hblank. apply strip_empty_iff in Hblank.
  unfold position_suggestions. by rewrite Hblank.
Qed.

Lemma position_suggestions_visible q :
  all_space q = false →
  position_suggestions common_positions q
  = {| suggestions := take 10 (matching_positions common_positions (lower q));
       query := q |}.
Proof.
  intros Hvisible. unfold position_suggestions.
  destruct (strip q) eqn:Hstrip; [|done].
  apply strip_empty_iff in Hstrip. congruence.
Qed.

Lemma Query_accepts q : q ≠ EmptyString → Query "q" 1 q = Return q.
Proof. by destruct q. Qed.

(** C6 (as amended): for every query, the handler body yields at most ten
    names, each containing the query when both are lower-cased, in the
    order of the catalogue.  When the query has a character that is not
    white space these are the first ten matches of the catalogue; when it
    has none, no name is returned.  A query of at least one character
    reaches the body. *)
Theorem suggestions_spec q :
  let found := suggestions (position_suggestions common_positions q) in
  (length found ≤ 10)%nat
  ∧ Forall (λ name, is_substring (lower q) (lower name)) found
  ∧ found `sublist_of` common_positions
  ∧ (all_space q = false →
     found = take 10 (matching_positions common_positions (lower q)))
  ∧ (all_space q = true → found = [])
  ∧ (q ≠ EmptyString →
     get_position_suggestions common_positions q
     = Return {| suggestions := found; query := q |}).
Proof.
  destruct (all_space q) eqn:Hq.
  - rewrite (position_suggestions_blank q Hq). simpl.
    split_and!; [lia | constructor | apply sublist_nil_l | done | done |].
    intros Hne. unfold get_position_suggestions.
    rewrite (Query_accepts q Hne). simpl.
    by rewrite (position_suggestions_blank q Hq).
  - rewrite (position_suggestions_visible q Hq). simpl. split_and!.
    + rewrite length_take. lia.
    + apply Forall_take, Forall_forall. intros name Hin.
      by apply elem_of_matching_positions in Hin as [_ Hsub].
    + etrans; [apply sublist_take | apply matching_positions_sublist].
    + done.
    + done.
    + intros Hne. unfold get_position_suggestions.
      rewrite (Query_accepts q Hne). simpl.
      by rewrite (position_suggestions_visible q Hq).
Qed.

(** C7 (as amended): a query made of white space only, and at least one
    character long, is answered with an empty list; so is the empty query
    by the handler body, but the declared minimum length keeps it from
    reaching the body. *)
Theorem suggestions_blank_query q :
  all_space q = true →
  position_suggestions common_positions q = {| suggestions := []; query := q |}
  ∧ (q ≠ EmptyString →
     get_position_suggestions common_positions q
     = Return {| suggestions := []; query := q |})
  ∧ (q = EmptyString →
     get_position_suggestions common_positions q
     = Raise (RequestValidationError "q")).
Proof.
  intros Hblank. split_and!.
  - by apply position_suggestions_blank.
  - intros Hne. unfold get_position_suggestions.
    rewrite (Query_accepts q Hne). simpl.
    by rewrite (position_suggestions_blank q Hblank).
  - by intros ->.
Qed.

End Suggestions.

(** C6 (as amended) on the sample catalogue. *)
Lemma suggestions_spec_witness :
  get_position_suggestions sample_positions "DATA"
  = Return {| suggestions := ["Data Scientist"; "Database Administrator"];
              query := "DATA" |}.
Proof.
  apply (proj2 (proj2 (proj2 (proj2 (proj2
           (suggestions_spec sample_positions "DATA")))))).
  vm_compute. discriminate.
Defined.

(** C6 (as stated) fails at the query [" "] on a catalogue whose only name
    has a blank in it: the name contains the query, so the truncated
    filter holds it, and the handler returns nothing. *)
Lemma suggestions_blank_query_not_filter :
  get_position_suggestions ["Software Developer"] " "
  = Return {| suggestions := []; query := " " |}
  ∧ take 10 (matching_positions ["Software Developer"] (lower " "))
    = ["Software Developer"]
  ∧ suggestions (position_suggestions ["Software Developer"] " ")
    ≠ take 10 (matching_positions ["Software Developer"] (lower " ")).
Proof.
  split_and!; [reflexivity | reflexivity | discriminate].
Qed.

(** C7 (as amended) at three blanks. *)
Lemma suggestions_blank_query_witness :
  get_position_suggestions sample_positions "   "
  = Return {| suggestions := []; query := "   " |}.
Proof.
  apply (proj1 (proj2 (suggestions_blank_query sample_positions "   " eq_refl))).
  discriminate.
Defined.

(** C7 (as stated) fails at the empty query: the request is refused with
    a validation error, status 422, and no list is returned. *)
Lemma suggestions_empty_query_refused :
  get_position_suggestions sample_positions EmptyString
  = Raise (RequestValidationError "q")
  ∧ http_status (RequestValidationError "q") = 422
  ∧ ¬ ∃ response,
        get_position_suggestions sample_positions EmptyString = Return response.
Proof.
  split_and!; [reflexivity | reflexivity | intros [response Hr]; discriminate].
Qed.

(** * The combined view *)

Section DictUpdate.

Context {V : Type}.
Implicit Types (d : dict V) (k : string) (v : V).

Lemma get_set d k k' v :
  get k (set k' v d) = if String.eqb k k' then Some v else get k d.
Proof.
  induction d as [|[k1 v1] d IH]; simpl.
  - by destruct (String.eqb k k').
  - destruct (String.eqb_spec k' k1) as [->|Hne1]; simpl.
    + by destruct (String.eqb k k1).
    + destruct (String.eqb_spec k k1) as [->|Hne2].
      * destruct (String.eqb_spec k1 k'); [congruence | done].
      * exact IH.
Qed.

Lemma keys_app d1 d2 : keys (d1 ++ d2) = keys d1 ++ keys d2.
Proof. unfold keys. apply fmap_app. Qed.

End DictUpdate.

Section CombinedView.

Variable job_skills : dict (list string).

Implicit Types (positions : list string) (inner : dict (list string))
  (view : dict (dict (list string))) (mapping : dict (list string)).

(** The inner loop only touches the dict of its own category, and never
    raises when that category is present. *)
Lemma fill_category_spec category positions before inner after :
  category ∉ keys before →
  fill_category job_skills category positions
    (before ++ (category, inner) :: after)
  = Return (before ++ (category, fill_inner job_skills positions inner) :: after).
Proof.
  intros Hfresh. revert inner.
  induction positions as [|position positions IH]; intros inner; simpl; [done|].
  unfold mem. destruct (get position job_skills) as [value|]; simpl.
  - unfold setitem2. rewrite (get_app_fresh _ _ _ Hfresh). simpl.
    rewrite String.eqb_refl, (set_app_fresh _ _ _ _ _ Hfresh). simpl.
    apply IH.
  - apply IH.
Qed.

(** The outer loop fills the still empty dicts one after the other. *)
Lemma fill_categories_spec mapping view :
  NoDup (keys mapping) →
  (∀ category, category ∈ keys mapping → category ∉ keys view) →
  fill_categories job_skills mapping
    (view ++ ((λ item, (item.1, ([] : dict (list string)))) <$> mapping))
  = Return (view ++ combined_view job_skills mapping).
Proof.
  unfold combined_view, keys. revert view.
  induction mapping as [|[category positions] mapping IH]; intros view; simpl;
    [done|].
  rewrite NoDup_cons. intros [Hnew Hnodup] Hfresh.
  rewrite fill_category_spec; [|apply Hfresh, list_elem_of_here]. simpl.
  rewrite (cons_middle _ view), (cons_middle _ view), !(assoc_L (++)).
  apply IH; [done|].
  intros category' Hin. fold (keys (view ++ [(category, fill_inner job_skills positions [])])).
  rewrite keys_app, elem_of_app. intros [Hview|Hself].
  - by apply (Hfresh category'); [apply list_elem_of_further|].
  - simpl in Hself. apply list_elem_of_singleton in Hself as ->. done.
Qed.

(** The handler never raises; its view is the combined view of the two
    literals. *)
Lemma get_all_jobs_with_skills_eq :
  get_all_jobs_with_skills job_skills
  = Return {| categories := combined_view job_skills category_mapping;
              total_positions := len job_skills |}.
Proof.
  unfold get_all_jobs_with_skills.
  change empty_categories
    with ([] ++ ((λ item : string * list string,
                    (item.1, ([] : dict (list string)))) <$> category_mapping)).
  rewrite fill_categories_spec; [done | |].
  - apply (bool_decide_unpack _). vm_compute. reflexivity.
  - intros category _. apply not_elem_of_nil.
Qed.

(** What a position looks up after the inner loop. *)
Lemma get_fill_inner position positions inner :
  get position (fill_inner job_skills positions inner)
  = if bool_decide (position ∈ positions)
    then match get position job_skills with
         | Some value => Some value
         | None => get position inner
         end
    else get position inner.
Proof.
  revert inner.
  induction positions as [|p positions IH]; intros inner; cbn [fill_inner].
  - by rewrite bool_decide_eq_false_2 by apply not_elem_of_nil.
  - rewrite IH. destruct (String.eqb_spec position p) as [->|Hne].
    + rewrite (bool_decide_eq_true_2 (p ∈ p :: positions)) by apply list_elem_of_here.
      destruct (get p job_skills) as [value|]; [|by case_bool_decide].
      rewrite get_set, String.eqb_refl. by case_bool_decide.
    + assert (get position
                match get p job_skills with
                | Some value => set p value inner
                | None => inner
                end = get position inner) as ->.
      { destruct (get p job_skills); [|done].
        rewrite get_set. by destruct (String.eqb_spec position p). }
      assert (bool_decide (position ∈ p :: positions)
              = bool_decide (position ∈ positions)) as ->; [|done].
      apply bool_decide_ext. rewrite elem_of_cons. tauto.
Qed.

Lemma mem_fill_inner position positions :
  mem position (fill_inner job_skills positions []) = true
  ↔ position ∈ positions ∧ mem position job_skills = true.
Proof.
  unfold mem. rewrite get_fill_inner. simpl.
  case_bool_decide; destruct (get position job_skills); simpl;
    intuition congruence.
Qed.

Lemma get_combined_view category mapping :
  get category (combined_view job_skills mapping)
  = (λ positions, fill_inner job_skills positions []) <$> get category mapping.
Proof.
  unfold combined_view.
  induction mapping as [|[category' positions] mapping IH]; simpl; [done|].
  by destruct (String.eqb category category').
Qed.

(** A position is shown under a category exactly when the mapping lists
    it there and the catalogue has it as a key. *)
Lemma listed_combined_view mapping category position :
  listed (combined_view job_skills mapping) category position
  ↔ mapped mapping category position ∧ mem position job_skills = true.
Proof.
  unfold listed, mapped. rewrite get_combined_view. split.
  - intros [inner [Hget Hmem]].
    destruct (get category mapping) as [positions|]; [|done].
    injection Hget as <-. apply mem_fill_inner in Hmem as [Hin Hkey]. eauto.
  - intros [[positions [Hget Hin]] Hkey]. rewrite Hget. simpl.
    eexists. split; [done|]. by apply mem_fill_inner.
Qed.

(** Started from an empty dict on a list without repetition, the inner
    loop appends one item per position known to the catalogue. *)
Lemma fill_inner_fresh positions inner :
  NoDup positions →
  (∀ position, position ∈ positions → position ∉ keys inner) →
  keys (fill_inner job_skills positions inner)
  = keys inner ++ filter (λ position, position ∈ keys job_skills) positions.
Proof.
  revert inner. induction positions as [|p positions IH]; intros inner; simpl.
  - intros _ _. by rewrite app_nil_r.
  - rewrite NoDup_cons. intros [Hnew Hnodup] Hfresh.
    assert (p ∉ keys inner) as Hp by apply Hfresh, list_elem_of_here.
    rewrite filter_cons. destruct (get p job_skills) as [value|] eqn:Hget.
    + rewrite decide_True by (apply mem_true; unfold mem; by rewrite Hget).
      rewrite IH, (set_fresh _ _ _ Hp), keys_app; [by rewrite <-(assoc_L (++)) | done |].
      intros position Hin. rewrite (set_fresh _ _ _ Hp), keys_app, elem_of_app.
      intros [Hinner|Hself].
      * by apply (Hfresh position); [apply list_elem_of_further|].
      * apply list_elem_of_singleton in Hself as ->. done.
    + rewrite decide_False by (by apply get_None).
      apply IH; [done|]. intros position Hin.
      by apply Hfresh, list_elem_of_further.
Qed.

(** The number of positions shown, when no list of the mapping repeats a
    name: the mapped names that are keys of the catalogue. *)
Lemma positions_shown_combined_view mapping :
  Forall (λ item, NoDup item.2) mapping →
  positions_shown (combined_view job_skills mapping)
  = length (filter (λ position, position ∈ keys job_skills)
              (mapped_positions mapping)).
Proof.
  unfold positions_shown, combined_view, mapped_positions.
  induction 1 as [|[category positions] mapping Hnodup _ IH]; csimpl; [done|].
  rewrite filter_app, length_app, <-IH. f_equal.
  unfold len. rewrite <-(length_fmap fst). fold (keys (fill_inner job_skills positions [])).
  rewrite fill_inner_fresh; [done | done |].
  intros position _. apply not_elem_of_nil.
Qed.

Lemma mapped_positions_mapped mapping position :
  wf mapping → position ∈ mapped_positions mapping →
  ∃ category, mapped mapping category position.
Proof.
  unfold mapped_positions, mapped. intros Hwf Hin.
  apply list_elem_of_join in Hin as [positions [Hin Hlist]].
  apply list_elem_of_fmap in Hlist as [[category positions'] [-> Hitem]].
  exists category, positions'. split; [by apply elem_of_get | done].
Qed.

Lemma category_mapping_wf : wf category_mapping.
Proof. apply (bool_decide_unpack _). vm_compute. reflexivity. Qed.

Lemma category_mapping_lists_NoDup :
  Forall (λ item, NoDup item.2) category_mapping.
Proof. apply (bool_decide_unpack _). vm_compute. reflexivity. Qed.

Lemma category_mapping_positions_NoDup :
  NoDup (mapped_positions category_mapping).
Proof. apply (bool_decide_unpack _). vm_compute. reflexivity. Qed.

(** C8: the combined view shows a position under a category if and only
    if the mapping lists it under that category and it is a key of the
    catalogue, and it shows the catalogue's skills for it; a mapped
    position that the catalogue lacks is left out without an error. *)
Theorem all_jobs_lists_iff :
  ∃ response,
    get_all_jobs_with_skills job_skills = Return response
    ∧ ∀ category position,
        (listed (categories response) category position
         ↔ mapped category_mapping category position
           ∧ mem position job_skills = true)
        ∧ (∀ inner, get category (categories response) = Some inner →
             mem position inner = true →
             get position inner = get position job_skills).
Proof.
  eexists. split; [apply get_all_jobs_with_skills_eq|].
  cbn [categories total_positions].
  intros category position. split; [apply listed_combined_view|].
  intros inner Hget Hmem. rewrite get_combined_view in Hget.
  destruct (get category category_mapping) as [positions|]; [|done].
  injection Hget as <-. apply mem_fill_inner in Hmem as [Hin Hkey].
  rewrite get_fill_inner, bool_decide_eq_true_2 by done.
  unfold mem in Hkey. by destruct (get position job_skills).
Qed.

(** C10: [total_positions] is the number of keys of the catalogue, whatever
    the view shows; as soon as one key of the catalogue is in no list of
    the mapping, it is larger than the number of positions shown. *)
Theorem all_jobs_total_positions :
  ∃ response,
    get_all_jobs_with_skills job_skills = Return response
    ∧ total_positions response = len job_skills
    ∧ ∀ key,
        key ∈ keys job_skills →
        (∀ category, ¬ mapped category_mapping category key) →
        positions_shown (categories response) < total_positions response.
Proof.
  eexists. split; [apply get_all_jobs_with_skills_eq|].
  cbn [categories total_positions].
  split; [done|]. intros key Hkey Hunmapped.
  rewrite positions_shown_combined_view by apply category_mapping_lists_NoDup.
  assert (key ∉ mapped_positions category_mapping) as Hout.
  { intros Hin.
    destruct (mapped_positions_mapped _ _ category_mapping_wf Hin) as [category Hc].
    by apply (Hunmapped category). }
  set (shown := filter (λ position, position ∈ keys job_skills)
                  (mapped_positions category_mapping)).
  assert (key :: shown ⊆+ keys job_skills) as Hsub.
  { apply NoDup_submseteq.
    - apply NoDup_cons. split.
      + intros Hin. apply list_elem_of_filter in Hin as [_ Hin]. done.
      + apply NoDup_filter, category_mapping_positions_NoDup.
    - intros position Hin. apply elem_of_cons in Hin as [->|Hin]; [done|].
      by apply list_elem_of_filter in Hin as [Hin _]. }
  apply submseteq_length in Hsub. simpl in Hsub.
  unfold len, keys in *. rewrite length_fmap in Hsub. lia.
Qed.

End CombinedView.

(** C8 on the sample catalogue: ["qa engineer"] is mapped under
    ["Quality Assurance"] and is no key of the catalogue, so it is not
    shown; ["devops engineer"] is mapped and is a key, so it is. *)
Lemma all_jobs_lists_iff_witness :
  ∃ response,
    get_all_jobs_with_skills sample_skills = Return response
    ∧ mapped category_mapping "Quality Assurance" "qa engineer"
    ∧ ¬ listed (categories response) "Quality Assurance" "qa engineer"
    ∧ listed (categories response) "DevOps & Cloud" "devops engineer".
Proof.
  destruct (all_jobs_lists_iff sample_skills) as [response [Hrun Hiff]].
  exists response. split_and!; [exact Hrun | | |].
  - eexists. split; [reflexivity|].
    apply (bool_decide_unpack _). vm_compute. reflexivity.
  - intros Hshown.
    apply (proj1 (Hiff "Quality Assurance" "qa engineer")) in Hshown as [_ Hkey].
    vm_compute in Hkey. discriminate.
  - apply (proj1 (Hiff "DevOps & Cloud" "devops engineer")). split.
    + eexists. split; [reflexivity|].
      apply (bool_decide_unpack _). vm_compute. reflexivity.
    + reflexivity.
Defined.

(** C10 on the sample catalogue: its key ["developer"] is in no list of
    the mapping; four keys, three positions shown. *)
Lemma all_jobs_total_positions_witness :
  ∃ response,
    get_all_jobs_with_skills sample_skills = Return response
    ∧ total_positions response = 4
    ∧ positions_shown (categories response) < total_positions response.
Proof.
  destruct (all_jobs_total_positions sample_skills) as [response [Hrun [Htotal Hless]]].
  exists response. split_and!; [exact Hrun | exact Htotal |].
  apply (Hless "developer").
  - apply (bool_decide_unpack _). vm_compute. reflexivity.
  - intros category [positions [Hget Hin]].
    assert ("developer" ∈ mapped_positions category_mapping) as Hany.
    { apply list_elem_of_join. exists positions. split; [done|].
      apply list_elem_of_fmap. exists (category, positions). split; [done|].
      by apply get_elem_of. }
    revert Hany. apply (bool_decide_unpack _). vm_compute. reflexivity.
Defined.

(** * More on the string operations *)

Section NormalizeFacts.

Implicit Types (s t : string) (c : ascii).

Lemma isspace_lower_char c : isspace (lower_char c) = isspace c.
Proof. destruct c as [[] [] [] [] [] [] [] []]; reflexivity. Qed.

Lemma lower_char_idem c : lower_char (lower_char c) = lower_char c.
Proof. destruct c as [[] [] [] [] [] [] [] []]; reflexivity. Qed.

Lemma lower_idem s : lower (lower s) = lower s.
Proof.
  induction s as [|c s IH]; [done|]. simpl. by rewrite lower_char_idem, IH.
Qed.



Lemma lower_lstrip s : lower (lstrip s) = lstrip (lower s).
Proof.
  induction s as [|c s IH]; [done|]. simpl. rewrite isspace_lower_char.
  by destruct (isspace c).
Qed.

Lemma lower_rstrip s : lower (rstrip s) = rstrip (lower s).
Proof.
  induction s as [|c s IH]; [done|]. simpl. rewrite <-IH, isspace_lower_char.
  destruct (rstrip s) as [|d r]; simpl; [by destruct (isspace c) | done].
Qed.

(** Lower-casing and trimming commute. *)
Lemma lower_strip s : lower (strip s) = strip (lower s).
Proof. unfold strip. by rewrite lower_rstrip, lower_lstrip. Qed.

Lemma rstrip_cons c s :
  rstrip (String c s)
  = match rstrip s with
    | EmptyString => if isspace c then EmptyString else String c EmptyString
    | String d r => String c (String d r)
    end.
Proof. reflexivity. Qed.

Lemma rstrip_idem s : rstrip (rstrip s) = rstrip s.
Proof.
  induction s as [|c s IH]; [done|]. rewrite rstrip_cons.
  destruct (rstrip s) as [|d r] eqn:Hr.
  - destruct (isspace c) eqn:Hc; [done|]. rewrite rstrip_cons. simpl. by rewrite Hc.
  - rewrite rstrip_cons, IH. done.
Qed.

Lemma rstrip_head c s :
  isspace c = false → ∃ t, rstrip (String c s) = String c t.
Proof.
  intros Hc. simpl. destruct (rstrip s); rewrite ?Hc; by eexists.
Qed.

Lemma strip_idem s : strip (strip s) = strip s.
Proof.
  unfold strip. pose proof (lstrip_head s) as Hhead.
  destruct (lstrip s) as [|c t]; [done|].
  destruct (rstrip_head c t Hhead) as [t' Ht']. rewrite Ht'.
  cbn [lstrip]. rewrite Hhead, <-Ht'. apply rstrip_idem.
Qed.

End NormalizeFacts.

(** * More on the position resolver *)

Section ResolverMore.

Variable job_skills : dict (list string).

Implicit Types (position key : string) (items : dict (list string)).

Lemma normalize_idem position : normalize (normalize position) = normalize position.
Proof.
  unfold normalize. by rewrite <-lower_strip, strip_idem, lower_strip, lower_idem.
Qed.

(** What the loop returns comes from an item whose key passes the test. *)
Lemma partial_match_Some position normalized_position items response :
  partial_match position normalized_position items = Some response →
  ∃ key skills,
    (key, skills) ∈ items ∧ related normalized_position key
    ∧ response = {| position := position; skills := skills;
                    skills_count := length skills |}.
Proof.
  induction items as [|[key' skills'] items IH]; simpl; [done|].
  destruct (contains normalized_position key' || contains key' normalized_position)
    eqn:Htest.
  - intros [= <-]. exists key', skills'.
    split_and!; [apply list_elem_of_here | by apply related_bool | done].
  - intros Hloop. destruct (IH Hloop) as (key & skills0 & Hin & Hrel & ->).
    exists key, skills0. split_and!; [by apply list_elem_of_further | done | done].
Qed.

(** The skills found by the loop do not depend on the echoed label. *)
Lemma partial_match_skills position1 position2 normalized_position items :
  skills <$> partial_match position1 normalized_position items
  = skills <$> partial_match position2 normalized_position items.
Proof.
  induction items as [|[key' skills'] items IH]; simpl; [done|].
  by destruct (contains normalized_position key' || contains key' normalized_position).
Qed.

(** The handler has two outcomes only.  Either it answers with the skills
    of a catalogue item whose key is related to the normalized input,
    echoing the input, or no key is related and it raises the 404; the
    indexing of line 160 never raises. *)
Theorem resolve_outcomes position :
  (∃ key skills,
     (key, skills) ∈ job_skills ∧ related (normalize position) key
     ∧ get_skills_for_position job_skills position
       = Return {| position := position; skills := skills;
                   skills_count := length skills |})
  ∨ ((∀ key, key ∈ keys job_skills → ¬ related (normalize position) key)
     ∧ get_skills_for_position job_skills position
       = Raise (HTTPException 404 (not_found_detail position))).
Proof.
  unfold get_skills_for_position, mem.
  destruct (get (normalize position) job_skills) as [skills0|] eqn:Hget.
  - left. exists (normalize position), skills0.
    split_and!; [by apply get_elem_of | left; apply is_substring_refl | done].
  - destruct (partial_match position (normalize position) job_skills)
      as [response|] eqn:Hloop.
    + left. apply partial_match_Some in Hloop as (key & skills0 & Hin & Hrel & ->).
      by exists key, skills0.
    + right. split; [|done].
      exact (proj1 (partial_match_None position _ _) Hloop).
Qed.

Lemma outcome_same_normalization position1 position2 :
  normalize position1 = normalize position2 →
  outcome (get_skills_for_position job_skills position1)
  = outcome (get_skills_for_position job_skills position2).
Proof.
  intros Hsame. unfold get_skills_for_position. rewrite Hsame.
  destruct (mem (normalize position2) job_skills).
  - by destruct (get (normalize position2) job_skills).
  - pose proof (partial_match_skills position1 position2
                  (normalize position2) job_skills) as Hskills.
    destruct (partial_match position1 (normalize position2) job_skills),
      (partial_match position2 (normalize position2) job_skills);
      simpl in *; congruence.
Qed.

(** Two spellings with the same normalization (case, surrounding white
    space) are answered alike: the same skills, or the same refusal. *)
Theorem resolve_same_normalization position1 position2 :
  normalize position1 = normalize position2 →
  outcome (get_skills_for_position job_skills position1)
  = outcome (get_skills_for_position job_skills position2).
Proof. apply outcome_same_normalization. Qed.

(** Normalizing is idempotent, so an input and its normalized form are
    answered alike. *)
Theorem resolve_normalized position :
  normalize (normalize position) = normalize position
  ∧ outcome (get_skills_for_position job_skills (normalize position))
    = outcome (get_skills_for_position job_skills position).
Proof.
  split; [apply normalize_idem|].
  apply outcome_same_normalization, normalize_idem.
Qed.

End ResolverMore.

Lemma resolve_same_normalization_witness :
  outcome (get_skills_for_position sample_skills "  DATA Scientist ")
  = outcome (get_skills_for_position sample_skills "data scientist").
Proof.
  apply (resolve_same_normalization sample_skills
           "  DATA Scientist " "data scientist").
  reflexivity.
Defined.

(** * More on the suggestion engine *)

Section SuggestionsMore.

Variable common_positions : list string.

Implicit Types (q name : string).





(** A matching name is left out only when ten names are returned: with
    fewer than ten suggestions, every name of the catalogue that contains
    the query is among them. *)
Theorem suggestions_complete q name :
  all_space q = false →
  name ∈ common_positions → is_substring (lower q) (lower name) →
  name ∈ suggestions (position_suggestions common_positions q)
  ∨ length (suggestions (position_suggestions common_positions q)) = 10.
Proof.
  intros Hq Hin Hsub. rewrite (position_suggestions_visible _ q Hq). simpl.
  destruct (decide (length (matching_positions common_positions (lower q)) ≤ 10)%nat)
    as [Hfew|Hmany].
  - left. rewrite take_ge by done. by apply elem_of_matching_positions.
  - right. rewrite length_take. lia.
Qed.



(** Every suggestion is one of the names listed by [get_all_positions],
    in the order of that list, and there are never more suggestions than
    its [total_count]. *)
Theorem suggestions_within_positions q :
  let listing := Positions.get_all_positions common_positions in
  suggestions (position_suggestions common_positions q)
  `sublist_of` Positions.positions listing
  ∧ (length (suggestions (position_suggestions common_positions q))
     ≤ Positions.total_count listing)%nat.
Proof.
  assert (suggestions (position_suggestions common_positions q)
          `sublist_of` common_positions) as Hsub.
  { destruct (all_space q) eqn:Hq.
    - rewrite position_suggestions_blank by done. apply sublist_nil_l.
    - rewrite position_suggestions_visible by done. simpl.
      etrans; [apply sublist_take | apply matching_positions_sublist]. }
  split; [exact Hsub | by apply sublist_length].
Qed.

End SuggestionsMore.

Lemma suggestions_complete_witness :
  "Data Scientist" ∈ suggestions (position_suggestions sample_positions "SCIENT")
  ∨ length (suggestions (position_suggestions sample_positions "SCIENT")) = 10.
Proof.
  apply (suggestions_complete sample_positions "SCIENT" "Data Scientist").
  - reflexivity.
  - apply (bool_decide_unpack _). vm_compute. reflexivity.
  - apply contains_spec. vm_compute. reflexivity.
Defined.



(** * More on the keys: splitting, trimming, loading *)

Section SplitFacts.

Implicit Types (s t seg : string) (c sep : ascii) (segs : list string).

Lemma split_nonempty sep s : ∃ seg segs, split sep s = seg :: segs.
Proof.
  destruct s as [|c s]; simpl; [by eexists _, _|].
  destruct (Ascii.eqb c sep); [by eexists _, _|].
  destruct (split sep s); by eexists _, _.
Qed.

Lemma has_char_cons_ne sep c s :
  Ascii.eqb c sep = false → has_char sep (String c s) = has_char sep s.
Proof. simpl. rewrite (Ascii.eqb_sym sep c). by intros ->. Qed.

(** No segment holds the separator. *)
Lemma split_no_sep sep s :
  Forall (λ seg, has_char sep seg = false) (split sep s).
Proof.
  induction s as [|c s IH]; simpl; [by repeat constructor|].
  destruct (Ascii.eqb c sep) eqn:Hc; [by constructor|].
  destruct (split sep s) as [|seg segs].
  { constructor; [by rewrite has_char_cons_ne | constructor]. }
  apply Forall_cons in IH as [Hseg Hsegs]. constructor; [|done].
  by rewrite has_char_cons_ne.
Qed.

Lemma has_char_false_cons sep c s :
  has_char sep (String c s) = false →
  Ascii.eqb c sep = false ∧ has_char sep s = false.
Proof. simpl. rewrite (Ascii.eqb_sym sep c). apply orb_false_elim. Qed.

Lemma split_single sep s : has_char sep s = false → split sep s = [s].
Proof.
  induction s as [|c s IH]; [done|].
  intros [Hc Hs]%has_char_false_cons. simpl. by rewrite Hc, (IH Hs).
Qed.

Lemma split_app sep s t :
  has_char sep s = false →
  split sep (s +:+ String sep t) = s :: split sep t.
Proof.
  induction s as [|c s IH].
  - intros _. rewrite append_nil_l. simpl. by rewrite Ascii.eqb_refl.
  - intros [Hc Hs]%has_char_false_cons. rewrite append_cons. simpl.
    by rewrite Hc, (IH Hs).
Qed.

(** Splitting undoes joining, for parts without the separator. *)
Lemma split_concat sep seg segs :
  Forall (λ seg, has_char sep seg = false) (seg :: segs) →
  split sep (String.concat (String sep EmptyString) (seg :: segs)) = seg :: segs.
Proof.
  revert seg. induction segs as [|seg' segs IH]; intros seg Hall.
  - apply split_single. by apply Forall_cons in Hall as [? _].
  - apply Forall_cons in Hall as [Hseg Hall].
    change (String.concat (String sep EmptyString) (seg :: seg' :: segs))
      with (seg +:+ String sep EmptyString
            +:+ String.concat (String sep EmptyString) (seg' :: segs)).
    rewrite append_cons, append_nil_l, (split_app _ _ _ Hseg). by rewrite IH.
Qed.

Lemma has_char_lstrip c s : has_char c s = false → has_char c (lstrip s) = false.
Proof.
  induction s as [|d s IH]; [done|]. simpl.
  destruct (isspace d); [|done].
  intros [_ Hs]%orb_false_elim. by apply IH.
Qed.

Lemma has_char_rstrip c s : has_char c s = false → has_char c (rstrip s) = false.
Proof.
  induction s as [|d s IH]; [done|].
  intros [Hd Hs]%orb_false_elim. rewrite rstrip_cons.
  specialize (IH Hs). destruct (rstrip s) as [|e r].
  - destruct (isspace d); simpl; [done | by rewrite Hd].
  - cbn [has_char]. cbn [has_char] in IH. by rewrite Hd, IH.
Qed.

Lemma has_char_strip c s : has_char c s = false → has_char c (strip s) = false.
Proof. intros Hs. by apply has_char_rstrip, has_char_lstrip. Qed.

(** A string without white space is its own trimmed form. *)
Lemma strip_no_space s : no_space s = true → strip s = s.
Proof.
  intros Hs. unfold strip.
  assert (lstrip s = s) as ->.
  { destruct s as [|c s]; [done|]. simpl in *.
    by destruct (isspace c). }
  induction s as [|c s IH]; [done|].
  apply andb_true_iff in Hs as [Hc Hs]. rewrite rstrip_cons, (IH Hs).
  destruct s; [|done]. by destruct (isspace c).
Qed.

End SplitFacts.

Section Keys.

Variable scheme_status : nat.

Implicit Types (key env : string) (keys : list string) (header : option string).

Lemma clean_key_truthy key : clean_key key → truthy (strip key) = true.
Proof. intros (Hne & _ & ->). by destruct key. Qed.

Lemma stripped_keys_concat key keys :
  Forall clean_key (key :: keys) →
  stripped_keys (String.concat "," (key :: keys)) = key :: keys.
Proof.
  intros Hclean. unfold stripped_keys. rewrite split_concat.
  - assert (filter (λ key0, truthy (strip key0)) (key :: keys) = key :: keys)
      as ->.
    { induction Hclean as [|key0 keys0 Hkey _ IH]; [done|].
      rewrite filter_cons, decide_True; [by rewrite IH|].
      apply Is_true_true. by apply clean_key_truthy. }
    induction Hclean as [|key0 keys0 (_ & _ & Hkey) _ IH]; [done|].
    csimpl. by rewrite Hkey, IH.
  - eapply Forall_impl; [exact Hclean|]. by intros key0 (_ & Hcomma & _).
Qed.

Lemma concat_nonempty key keys :
  key ≠ EmptyString → String.concat "," (key :: keys) ≠ EmptyString.
Proof.
  intros Hne. destruct keys as [|key' keys]; [done|].
  change (String.concat "," (key :: key' :: keys))
    with (key +:+ "," +:+ String.concat "," (key' :: keys)).
  by destruct key.
Qed.

(** Every key kept at start-up is clean: not empty, without a comma, and
    without white space at either end. *)
Theorem stripped_keys_clean env key :
  key ∈ stripped_keys env → clean_key key.
Proof.
  intros Hin. split; [by eapply stripped_keys_nonempty|].
  unfold stripped_keys in Hin. apply list_elem_of_fmap in Hin as [seg [-> Hin]].
  apply list_elem_of_filter in Hin as [_ Hin]. split; [|apply strip_idem].
  apply has_char_strip.
  pose proof (split_no_sep "," env) as Hall.
  rewrite Forall_forall in Hall. by apply Hall.
Qed.

Lemma VALID_API_KEYS_concat key keys :
  Forall clean_key (key :: keys) →
  VALID_API_KEYS (Some (String.concat "," (key :: keys)))
  = Return (list_to_set (key :: keys)).
Proof.
  intros Hclean. unfold VALID_API_KEYS.
  destruct (String.concat "," (key :: keys)) eqn:Hjoin.
  - exfalso. revert Hjoin. apply concat_nonempty.
    by apply Forall_cons in Hclean as [(Hne & _) _].
  - cbn [truthy negb]. by rewrite <-Hjoin, stripped_keys_concat.
Qed.

(** Writing clean keys into the variable, separated by commas, and
    loading them gives back exactly those keys. *)
Theorem configured_keys_round_trip key keys :
  Forall clean_key (key :: keys) →
  stripped_keys (String.concat "," (key :: keys)) = key :: keys
  ∧ VALID_API_KEYS (Some (String.concat "," (key :: keys)))
    = Return (list_to_set (key :: keys)).
Proof.
  intros Hclean.
  split; [by apply stripped_keys_concat | by apply VALID_API_KEYS_concat].
Qed.

(** Every request ends in one of three ways: a presented non-empty key of
    the valid set is handed to the handler unchanged; a missing or empty
    header is refused by the scheme; any other key is refused with the 401
    of [verify_api_key]. *)
Theorem gate_outcomes (valid_api_keys : gset string) header :
  (∃ key, header = Some key ∧ key ≠ EmptyString ∧ key ∈ valid_api_keys
          ∧ authenticate scheme_status api_key_header valid_api_keys header
            = Return key)
  ∨ ((header = None ∨ header = Some EmptyString)
     ∧ authenticate scheme_status api_key_header valid_api_keys header
       = Raise (HTTPException scheme_status NOT_AUTHENTICATED))
  ∨ (∃ key, header = Some key ∧ key ≠ EmptyString ∧ (key ∉ valid_api_keys)
            ∧ authenticate scheme_status api_key_header valid_api_keys header
              = Raise (HTTPException 401 INVALID_OR_MISSING)).
Proof.
  unfold authenticate, APIKeyHeader_call, verify_api_key.
  destruct header as [[|c key]|]; simpl.
  - right; left. split; [by right | done].
  - case_bool_decide as Hin.
    + left. by exists (String c key).
    + right; right. by exists (String c key).
  - right; left. split; [by left | done].
Qed.

(** With the key set loaded from the variable, a request is let through
    exactly when it presents one of the trimmed non-empty segments of the
    variable, character for character. *)
Theorem gate_accepts_configured env_var (valid_api_keys : gset string) header key :
  VALID_API_KEYS env_var = Return valid_api_keys →
  (authenticate scheme_status api_key_header valid_api_keys header = Return key
   ↔ ∃ env, env_var = Some env ∧ header = Some key ∧ key ∈ stripped_keys env).
Proof.
  unfold VALID_API_KEYS. destruct env_var as [env|]; [|done].
  destruct (truthy env); [|done]. cbn [negb]. intros [= <-].
  rewrite authenticate_accepts, elem_of_list_to_set. split.
  - intros (-> & _ & Hin). by exists env.
  - intros (env' & [= <-] & -> & Hin).
    split_and!; [done | by eapply stripped_keys_nonempty | done].
Qed.

(** A service started on a variable that yields no key refuses every
    request. *)
Theorem no_keys_locks_out env (valid_api_keys : gset string) header :
  VALID_API_KEYS (Some env) = Return valid_api_keys →
  stripped_keys env = [] →
  ∃ status detail,
    authenticate scheme_status api_key_header valid_api_keys header
    = Raise (HTTPException status detail).
Proof.
  unfold VALID_API_KEYS. destruct (truthy env); [|done]. cbn [negb].
  intros [= <-] ->. unfold authenticate, APIKeyHeader_call, verify_api_key.
  destruct header as [[|c key]|]; simpl; [by eexists _, _| |by eexists _, _].
  rewrite bool_decide_eq_false_2 by set_solver. by eexists _, _.
Qed.

End Keys.

Lemma stripped_keys_clean_witness : clean_key "sk_b".
Proof.
  apply (stripped_keys_clean "sk_a, sk_b ,,sk_a" "sk_b").
  apply (bool_decide_unpack _). vm_compute. reflexivity.
Defined.

Lemma configured_keys_round_trip_witness :
  stripped_keys "sk_a,sk_b" = ["sk_a"; "sk_b"]
  ∧ VALID_API_KEYS (Some "sk_a,sk_b") = Return (list_to_set ["sk_a"; "sk_b"]).
Proof.
  apply (configured_keys_round_trip "sk_a" ["sk_b"]).
  repeat constructor; try discriminate; reflexivity.
Defined.

Lemma gate_accepts_configured_witness :
  authenticate 403 api_key_header (list_to_set (stripped_keys " sk_a , sk_b"))
    (Some "sk_b") = Return "sk_b".
Proof.
  apply (gate_accepts_configured 403 (Some " sk_a , sk_b")
           (list_to_set (stripped_keys " sk_a , sk_b")) (Some "sk_b") "sk_b").
  - reflexivity.
  - exists " sk_a , sk_b". split_and!; [reflexivity | reflexivity |].
    apply (bool_decide_unpack _). vm_compute. reflexivity.
Defined.

Lemma no_keys_locks_out_witness :
  ∃ status detail,
    authenticate 403 api_key_header (list_to_set (stripped_keys " , "))
      (Some "sk_a") = Raise (HTTPException status detail).
Proof.
  apply (no_keys_locks_out 403 " , " (list_to_set (stripped_keys " , "))
           (Some "sk_a")); reflexivity.
Defined.

(** * Key generation and the test script's key *)

Section KeyGeneration.

Variable scheme_status : nat.

Implicit Types (bs : list Byte.byte) (c : ascii) (s : string).

Lemma concat_iter_str s : String.concat EmptyString (iter_str s) = s.
Proof.
  induction s as [|c s IH]; [done|].
  unfold iter_str in *. cbn [list_ascii_of_string fmap list_fmap].
  destruct s as [|d s]; [done|].
  cbn [list_ascii_of_string fmap list_fmap] in *.
  change (String.concat EmptyString (String c EmptyString :: ?x :: ?l))
    with (String c EmptyString +:+ EmptyString +:+ String.concat EmptyString (x :: l)).
  by rewrite IH.
Qed.

Lemma hex_digit_ok n :
  n < 16 → is_hex_digit (PyBytes.hex_digit n) = true
           ∧ unhex_digit (PyBytes.hex_digit n) = n.
Proof.
  intros Hn. do 16 (destruct n as [|n]; [by vm_compute|]). lia.
Qed.

Lemma is_hex_digit_plain c :
  is_hex_digit c = true →
  isspace c = false ∧ Ascii.eqb "," c = false.
Proof.
  destruct c as [[] [] [] [] [] [] [] []]; vm_compute; by intros.
Qed.

Lemma byte_nibbles (b : Byte.byte) :
  Byte.to_nat b / 16 < 16 ∧ Byte.to_nat b mod 16 < 16
  ∧ 16 * (Byte.to_nat b / 16) + Byte.to_nat b mod 16 = Byte.to_nat b.
Proof.
  pose proof (Byte.to_nat_bounded b) as Hb.
  split_and!.
  - apply Nat.Div0.div_lt_upper_bound. lia.
  - apply Nat.mod_upper_bound. lia.
  - symmetry. apply Nat.div_mod_eq.
Qed.

(** Reading the digits back gives the bytes. *)
Lemma unhex_hex bs : unhex (PyBytes.hex bs) = Some bs.
Proof.
  induction bs as [|b bs IH]; [done|].
  destruct (byte_nibbles b) as (Hhi & Hlo & Hsum).
  cbn [PyBytes.hex unhex].
  rewrite (proj2 (hex_digit_ok _ Hhi)), (proj2 (hex_digit_ok _ Hlo)), Hsum.
  rewrite Byte.of_to_nat. simpl. by rewrite IH.
Qed.

Lemma all_hex_hex bs : all_hex (PyBytes.hex bs) = true.
Proof.
  induction bs as [|b bs IH]; [done|].
  destruct (byte_nibbles b) as (Hhi & Hlo & _). cbn [PyBytes.hex all_hex].
  by rewrite (proj1 (hex_digit_ok _ Hhi)), (proj1 (hex_digit_ok _ Hlo)), IH.
Qed.

Lemma length_hex bs : String.length (PyBytes.hex bs) = 2 * length bs.
Proof. induction bs as [|b bs IH]; [done|]. simpl in *. lia. Qed.

Lemma all_hex_plain s :
  all_hex s = true → no_space s = true ∧ has_char "," s = false.
Proof.
  induction s as [|c s IH]; [done|]. cbn [all_hex no_space has_char].
  intros [Hc Hs]%andb_true_iff. destruct (IH Hs) as [Hspace Hcomma].
  destruct (is_hex_digit_plain c Hc) as [-> ->]. by rewrite Hspace, Hcomma.
Qed.

Lemma generate_api_key_eq bs : generate_api_key bs = "sk_" +:+ PyBytes.hex bs.
Proof. unfold generate_api_key, token_hex. by rewrite concat_iter_str. Qed.

Lemma generate_api_key_clean bs : clean_key (generate_api_key bs).
Proof.
  rewrite generate_api_key_eq.
  destruct (all_hex_plain _ (all_hex_hex bs)) as [Hspace Hcomma].
  split_and!; [done | |].
  - rewrite !append_cons, append_nil_l. cbn [has_char]. by rewrite Hcomma.
  - apply strip_no_space. rewrite !append_cons, append_nil_l.
    cbn [no_space]. by rewrite Hspace.
Qed.

(** The generator of [main.py] and the one of [generate_api_key.py] give
    the same key for the same random bytes: joining the characters of the
    token with the empty string changes nothing. *)
Theorem generate_api_key_agree bs :
  generate_api_key bs = GenerateApiKey.generate_api_key bs.
Proof. by rewrite generate_api_key_eq. Qed.

(** A generated key is [sk_] followed by two lower-case hexadecimal digits
    per random byte: 35 characters for the 16 bytes the code asks for. *)
Theorem generate_api_key_shape bs :
  generate_api_key bs = "sk_" +:+ token_hex bs
  ∧ all_hex (token_hex bs) = true
  ∧ String.length (generate_api_key bs) = 3 + 2 * length bs
  ∧ (length bs = 16 → String.length (generate_api_key bs) = 35).
Proof.
  rewrite generate_api_key_eq. unfold token_hex.
  assert (String.length ("sk_" +:+ PyBytes.hex bs) = 3 + 2 * length bs) as Hlen.
  { rewrite !append_cons, append_nil_l. simpl. by rewrite length_hex. }
  split_and!; [done | apply all_hex_hex | done | intros H16; lia].
Qed.

(** Different random bytes give different keys. *)
Theorem generate_api_key_inj bs1 bs2 :
  bs1 ≠ bs2 → generate_api_key bs1 ≠ generate_api_key bs2.
Proof.
  intros Hne Heq. apply Hne. rewrite !generate_api_key_eq in Heq.
  rewrite !append_cons, !append_nil_l in Heq. injection Heq as Heq.
  apply (f_equal unhex) in Heq. rewrite !unhex_hex in Heq. by injection Heq.
Qed.

(** Generated keys can be configured as they are: written into the
    variable with commas between them, each one is in the loaded set and
    opens the gate. *)
Theorem generated_keys_accepted bs rest :
  let keys := generate_api_key <$> bs :: rest in
  VALID_API_KEYS (Some (String.concat "," keys)) = Return (list_to_set keys)
  ∧ ∀ key, key ∈ keys →
      authenticate scheme_status api_key_header (list_to_set keys) (Some key)
      = Return key.
Proof.
  intros keys.
  assert (Forall clean_key keys) as Hclean.
  { apply Forall_fmap, Forall_forall. intros bs0 _. apply generate_api_key_clean. }
  split.
  - subst keys. rewrite fmap_cons in *. by apply VALID_API_KEYS_concat.
  - intros key Hin. apply authenticate_accepts. split_and!; [done | |].
    + rewrite Forall_forall in Hclean. by destruct (Hclean key Hin).
    + by apply elem_of_list_to_set.
Qed.

(** The test script's key: index 0 of the split always exists, and when
    the script goes on (its key is not empty) the service started on the
    same variable has that key in its set and lets the script's requests
    through. *)
Theorem test_key_accepted env_var :
  (∃ key, TestApi.API_KEY env_var = Some key)
  ∧ ∀ key,
      TestApi.API_KEY env_var = Some key → key ≠ EmptyString →
      ∃ valid_api_keys,
        VALID_API_KEYS env_var = Return valid_api_keys
        ∧ authenticate scheme_status api_key_header valid_api_keys
            (TestApi.headers key true) = Return key.
Proof.
  unfold TestApi.API_KEY, TestApi.headers.
  destruct (split_nonempty "," (default EmptyString env_var)) as (seg & segs & Hsplit).
  rewrite Hsplit. cbn [head fmap option_fmap option_map].
  split; [by eexists|]. intros key [= <-] Hne.
  destruct env_var as [[|c env]|];
    [by injection Hsplit as <- <- | | by injection Hsplit as <- <-].
  change (split "," (String c env) = seg :: segs) in Hsplit. eexists. split; [reflexivity|].
  apply authenticate_accepts. split_and!; [done | done |].
  apply elem_of_list_to_set. unfold stripped_keys. rewrite Hsplit.
  apply list_elem_of_fmap. exists seg. split; [done|].
  apply list_elem_of_filter. split; [|apply list_elem_of_here].
  apply Is_true_true. by destruct (strip seg).
Qed.

End KeyGeneration.

Lemma generate_api_key_inj_witness :
  generate_api_key [Byte.x00; Byte.x01] ≠ generate_api_key [Byte.x00; Byte.x10].
Proof.
  apply (generate_api_key_inj [Byte.x00; Byte.x01] [Byte.x00; Byte.x10]).
  discriminate.
Defined.

Lemma generate_api_key_shape_witness :
  generate_api_key (replicate 16 Byte.xa7)
  = "sk_a7a7a7a7a7a7a7a7a7a7a7a7a7a7a7a7"
  ∧ String.length (generate_api_key (replicate 16 Byte.xa7)) = 35.
Proof.
  split; [reflexivity|].
  apply (proj2 (proj2 (proj2 (generate_api_key_shape (replicate 16 Byte.xa7))))).
  reflexivity.
Defined.

Lemma generated_keys_accepted_witness :
  authenticate 403 api_key_header
    (list_to_set (generate_api_key <$> [[Byte.x01]; [Byte.xfe]]))
    (Some "sk_fe") = Return "sk_fe".
Proof.
  apply (proj2 (generated_keys_accepted 403 [Byte.x01] [[Byte.xfe]]) "sk_fe").
  apply (bool_decide_unpack _). vm_compute. reflexivity.
Defined.

Lemma test_key_accepted_witness :
  ∃ valid_api_keys,
    VALID_API_KEYS (Some " sk_a ,sk_b") = Return valid_api_keys
    ∧ authenticate 403 api_key_header valid_api_keys (Some "sk_a")
      = Return "sk_a".
Proof.
  apply (proj2 (test_key_accepted 403 (Some " sk_a ,sk_b")) "sk_a").
  - reflexivity.
  - discriminate.
Defined.

(** * More on the combined view *)

Section CombinedViewMore.

Variable job_skills : dict (list string).

Implicit Types (category position : string) (positions : list string).

Lemma keys_combined_view (mapping : dict (list string)) :
  keys (combined_view job_skills mapping) = keys mapping.
Proof.
  unfold keys, combined_view. rewrite <-list_fmap_compose.
  by apply list_fmap_ext.
Qed.


Lemma shown_submseteq :
  filter (λ position, position ∈ keys job_skills)
    (mapped_positions category_mapping) ⊆+ keys job_skills.
Proof.
  apply NoDup_submseteq.
  - apply NoDup_filter, category_mapping_positions_NoDup.
  - intros position Hin. by apply list_elem_of_filter in Hin as [Hin _].
Qed.


Lemma category_mapping_displayed :
  Forall (λ item,
            Forall (λ position,
                      position = "qa engineer"
                      ∨ position ∈ normalize <$>
                          default [] (get item.1 Categories.categories))
              item.2)
    category_mapping.
Proof. apply (bool_decide_unpack _). vm_compute. reflexivity. Qed.

(** The view always has the nine categories of the literal, in its order,
    also for an empty catalogue; under each one the mapped positions that
    are keys of the catalogue appear in the order of the mapping. *)
Theorem all_jobs_structure :
  ∃ response,
    get_all_jobs_with_skills job_skills = Return response
    ∧ keys (categories response)
      = [ "Software Development"; "Data & AI"; "DevOps & Cloud"; "Design";
          "Management"; "Quality Assurance"; "Security"; "Business";
          "Content & Marketing" ]
    ∧ ∀ category positions,
        get category category_mapping = Some positions →
        ∃ inner,
          get category (categories response) = Some inner
          ∧ keys inner
            = filter (λ position, position ∈ keys job_skills) positions.
Proof.
  eexists. split; [apply get_all_jobs_with_skills_eq|].
  cbn [categories]. split; [by rewrite keys_combined_view|].
  intros category positions Hget. rewrite get_combined_view, Hget.
  eexists. split; [done|].
  rewrite fill_inner_fresh; [done | | intros ? _; apply not_elem_of_nil].
  pose proof category_mapping_lists_NoDup as Hall.
  rewrite Forall_forall in Hall.
  apply (Hall (category, positions)). by apply get_elem_of.
Qed.

(** The view never shows more positions than [total_positions] counts,
    and shows as many exactly when every key of the catalogue is in some
    list of the mapping. *)
Theorem all_jobs_shown_le_total :
  ∃ response,
    get_all_jobs_with_skills job_skills = Return response
    ∧ (positions_shown (categories response) ≤ total_positions response)%nat
    ∧ (wf job_skills →
       (positions_shown (categories response) = total_positions response
        ↔ ∀ key, key ∈ keys job_skills →
                 key ∈ mapped_positions category_mapping)).
Proof.
  eexists. split; [apply get_all_jobs_with_skills_eq|].
  cbn [categories total_positions].
  rewrite positions_shown_combined_view by apply category_mapping_lists_NoDup.
  assert (len job_skills = length (keys job_skills)) as ->.
  { unfold len, keys. by rewrite length_fmap. }
  split; [apply submseteq_length, shown_submseteq|].
  intros Hwf. split.
  - intros Hsame key Hkey.
    destruct (decide (key ∈ mapped_positions category_mapping)) as [|Hout];
      [done|].
    exfalso.
    assert (key :: filter (λ position, position ∈ keys job_skills)
                     (mapped_positions category_mapping) ⊆+ keys job_skills)
      as Hsub.
    { apply NoDup_submseteq.
      - apply NoDup_cons. split.
        + intros Hin. by apply list_elem_of_filter in Hin as [_ Hin].
        + apply NoDup_filter, category_mapping_positions_NoDup.
      - intros position Hin. apply elem_of_cons in Hin as [->|Hin]; [done|].
        by apply list_elem_of_filter in Hin as [Hin _]. }
    apply submseteq_length in Hsub. simpl in Hsub. lia.
  - intros Hall. apply Nat.le_antisymm.
    + apply submseteq_length, shown_submseteq.
    + apply submseteq_length, NoDup_submseteq; [exact Hwf|].
      intros key Hkey. apply list_elem_of_filter. split; [done | by apply Hall].
Qed.

(** The view and [get_job_categories] name the same categories in the
    same order, and every position the view shows under a category, other
    than ["qa engineer"], is the normalized form of a name that
    [get_job_categories] lists under that category. *)
Theorem all_jobs_matches_categories :
  ∃ response,
    get_all_jobs_with_skills job_skills = Return response
    ∧ keys (categories response)
      = Categories.category <$> Categories.get_job_categories
    ∧ ∀ category position,
        listed (categories response) category position →
        position = "qa engineer"
        ∨ ∃ record name,
            record ∈ Categories.get_job_categories
            ∧ Categories.category record = category
            ∧ name ∈ Categories.positions record
            ∧ normalize name = position.
Proof.
  eexists. split; [apply get_all_jobs_with_skills_eq|].
  cbn [categories]. split; [by rewrite keys_combined_view|].
  intros category position [[positions [Hget Hin]] _]%listed_combined_view.
  pose proof category_mapping_displayed as Hall.
  rewrite Forall_forall in Hall.
  specialize (Hall (category, positions) (get_elem_of _ _ _ Hget)).
  rewrite Forall_forall in Hall.
  destruct (Hall position Hin) as [->|Hshown]; [by left|]. right.
  cbn [fst] in Hshown.
  destruct (get category Categories.categories) as [display|] eqn:Hdisplay;
    [|by apply elem_of_nil in Hshown].
  apply list_elem_of_fmap in Hshown as [name [-> Hname]].
  exists {| Categories.category := category; Categories.positions := display |}, name.
  split_and!; [|done|done|done].
  unfold Categories.get_job_categories. apply list_elem_of_fmap.
  exists (category, display). split; [done | by apply get_elem_of].
Qed.


End CombinedViewMore.

Lemma all_jobs_structure_witness :
  ∃ response inner,
    get_all_jobs_with_skills sample_skills = Return response
    ∧ get "DevOps & Cloud" (categories response) = Some inner
    ∧ keys inner = ["devops engineer"].
Proof.
  destruct (all_jobs_structure sample_skills) as (response & Hrun & _ & Hinner).
  destruct (Hinner "DevOps & Cloud"
              [ "devops engineer"; "cloud engineer"; "system administrator";
                "network engineer"; "database administrator" ] eq_refl)
    as (inner & Hget & Hkeys).
  exists response, inner. split_and!; [done | done |].
  rewrite Hkeys. vm_compute. reflexivity.
Defined.

Lemma all_jobs_shown_le_total_witness :
  ∃ response,
    get_all_jobs_with_skills sample_skills = Return response
    ∧ (positions_shown (categories response) ≤ total_positions response)%nat
    ∧ positions_shown (categories response) ≠ total_positions response.
Proof.
  destruct (all_jobs_shown_le_total sample_skills) as (response & Hrun & Hle & Hiff).
  exists response. split_and!; [done | done |].
  intros Hsame.
  assert (wf sample_skills) as Hwf.
  { apply (bool_decide_unpack _). vm_compute. reflexivity. }
  pose proof (proj1 (Hiff Hwf) Hsame "developer") as Hmapped.
  revert Hmapped. apply (bool_decide_unpack _). vm_compute. reflexivity.
Defined.

Lemma all_jobs_matches_categories_witness :
  ∃ record name,
    record ∈ Categories.get_job_categories
    ∧ Categories.category record = "Data & AI"
    ∧ name ∈ Categories.positions record
    ∧ normalize name = "data scientist".
Proof.
  destruct (all_jobs_matches_categories sample_skills) as (response & Hrun & _ & Hall).
  assert (response
          = {| categories := combined_view sample_skills category_mapping;
               total_positions := 4 |}) as ->.
  { vm_compute in Hrun. injection Hrun as <-. vm_compute. reflexivity. }
  destruct (Hall "Data & AI" "data scientist") as [Hqa|Hshown];
    [|discriminate Hqa|exact Hshown].
  eexists. split; vm_compute; reflexivity.
Defined.

